(** * Shoppico: the cart store (src/contexts/AuthContext.js, lines 449-681)

    A shallow embedding of [cartReducer], of the load and save effects of
    [CartProvider] and of the four public operations, followed by the
    properties of the cart the specification states.

    Around the cart, the file also embeds its callers (the product page, the
    checkout form and the paging of the product list), the session timeout
    of [AuthProvider], and the utilities of utils/security.js the provider
    relies on (login rate limiting, CSRF tokens, the secure storage wrapper)
    together with [sanitizeInput] and [checkPasswordStrength].

    Conventions of the embedding.
    - A JavaScript number is an integer ([Z]) or [NaN]; arithmetic on
      integers is exact.  [undefined * n] is [NaN], and [NaN] absorbs sums.
      Quantities are integers.  Where rounding or the comparisons of NaN
      matter, the module [Doubles] has the reducer on binary64 values.
    - An object field that may be missing is an [option]; [None] reads as
      [undefined].  [===] on ids is equality of [option string].
    - [localStorage] is a finite map from keys to strings whose reads and
      writes may throw; [JSON.parse] and [JSON.stringify] are parameters.
    - [dispatch] reduces at once, which gives the state of the next render
      whenever the reducer returns; the module [Queued] has the load effect
      with the actions queued and reduced by the render, and a [JSON.parse]
      that may yield [null], on which the reducer throws.
    - A character of a [string] is a code unit below 256; where larger code
      units matter (the secure storage wrapper) a string is a list of code
      units. Times are integers (milliseconds). *)

From Stdlib Require Import ZArith Lia Ascii.
From Stdlib Require PrimFloat FloatAxioms SpecFloat FloatOps.
From stdpp Require Import base option list strings pretty gmap.

Local Open Scope Z_scope.

(** ** JavaScript values used by the cart *)

Inductive num : Type :=
  | Num (z : Z)
  | NaN.

#[global] Instance num_eq_dec : EqDecision num.
Proof. solve_decision. Defined.

Definition js_add (a b : num) : num :=
  match a, b with
  | Num x, Num y => Num (x + y)
  | _, _ => NaN
  end.

Definition js_mul (a b : num) : num :=
  match a, b with
  | Num x, Num y => Num (x * y)
  | _, _ => NaN
  end.

(** [ToNumber] of a numeric field that may be missing. *)
Definition to_num (v : option Z) : num :=
  match v with
  | Some z => Num z
  | None => NaN
  end.

(** An id as [===] sees it: a string, or [undefined]. *)
Abbreviation js_id := (option string).

(** ** Data model *)

(** The product descriptor handed to [addToCart].  The callers in
    ProductDetails.js and Cart.js also put a [quantity] field in it; the
    reducer's spread [{...product, quantity}] overwrites it. *)
Record Product : Type := mkProduct {
  p_id : js_id;
  p_name : option string;
  p_price : option Z;
  p_category : option string;
  p_imageUrl : option string;
  p_quantity : option Z
}.

Record CartLineItem : Type := mkItem {
  id : js_id;
  name : option string;
  price : option Z;
  category : option string;
  imageUrl : option string;
  quantity : Z
}.

#[global] Instance CartLineItem_eq_dec : EqDecision CartLineItem.
Proof. solve_decision. Defined.

Record CartState : Type := mkState {
  items : list CartLineItem;
  total : num;
  itemCount : Z;
  loading : bool;
  error : option string
}.

#[global] Instance CartState_eq_dec : EqDecision CartState.
Proof. solve_decision. Defined.

(** What [JSON.parse] yields for a persisted cart: an object whose three
    fields may each be missing (or [null]). *)
Record Payload : Type := mkPayload {
  pl_items : option (list CartLineItem);
  pl_total : option Z;
  pl_itemCount : option Z
}.

Definition initialState : CartState :=
  {| items := []; total := Num 0; itemCount := 0; loading := false; error := None |}.

Inductive Action : Type :=
  | LOAD_CART (payload : Payload)
  | ADD_TO_CART (product : Product) (quantity : option Z)
  | REMOVE_FROM_CART (productId : js_id)
  | UPDATE_QUANTITY (productId : js_id) (qty : Z)
  | CLEAR_CART
  | SET_LOADING (payload : bool)
  | SET_ERROR (payload : string).

(** ** The reducer *)

(** [{ ...item, quantity: q }] *)
Definition with_quantity (item : CartLineItem) (q : Z) : CartLineItem :=
  {| id := id item; name := name item; price := price item;
     category := category item; imageUrl := imageUrl item; quantity := q |}.

(** [{ ...product, quantity }] *)
Definition line_of_product (product : Product) (q : Z) : CartLineItem :=
  {| id := p_id product; name := p_name product; price := p_price product;
     category := p_category product; imageUrl := p_imageUrl product;
     quantity := q |}.

(** [arr.findIndex(pred)]: the first index whose element satisfies [pred],
    or [-1]. *)
Definition findIndex {A} (P : A → Prop) `{∀ x, Decision (P x)} (l : list A) : Z :=
  match list_find P l with
  | Some (i, _) => Z.of_nat i
  | None => -1
  end.

(** [items.reduce((sum, item) => sum + (item.price * item.quantity), 0)] *)
Definition reduce_total (l : list CartLineItem) : num :=
  foldl (λ sum item, js_add sum (js_mul (to_num (price item)) (Num (quantity item))))
        (Num 0) l.

(** [items.reduce((sum, item) => sum + item.quantity, 0)] *)
Definition reduce_count (l : list CartLineItem) : Z :=
  foldl (λ sum item, sum + quantity item) 0 l.

(** [v || 0] on a numeric field: [undefined], [null] and [0] all give [0]. *)
Definition or_zero (v : option Z) : Z :=
  match v with
  | Some z => if decide (z = 0) then 0 else z
  | None => 0
  end.

(** [v || []]: an array, even an empty one, is truthy. *)
Definition or_empty {A} (v : option (list A)) : list A :=
  match v with
  | Some l => l
  | None => []
  end.

(** The REMOVE_FROM_CART case; UPDATE_QUANTITY re-enters the reducer with it
    when the quantity is not positive. *)
Definition remove_case (state : CartState) (productId : js_id) : CartState :=
  let newItems := filter (λ item, id item ≠ productId) (items state) in
  let newTotal := reduce_total newItems in
  let newItemCount := reduce_count newItems in
  {| items := newItems; total := newTotal; itemCount := newItemCount;
     loading := false; error := None |}.

Definition cartReducer (state : CartState) (action : Action) : CartState :=
  match action with
  | LOAD_CART payload =>
      {| items := or_empty (pl_items payload);
         total := Num (or_zero (pl_total payload));
         itemCount := or_zero (pl_itemCount payload);
         loading := false;
         error := None |}
  | ADD_TO_CART product payload_quantity =>
      let qty := default 1 payload_quantity in
      let existingItemIndex := findIndex (λ item, id item = p_id product) (items state) in
      let newItems :=
        if decide (0 ≤ existingItemIndex) then
          imap (λ index item,
                  if decide (Z.of_nat index = existingItemIndex)
                  then with_quantity item (quantity item + qty)
                  else item)
               (items state)
        else items state ++ [line_of_product product qty] in
      let newTotal := reduce_total newItems in
      let newItemCount := reduce_count newItems in
      {| items := newItems; total := newTotal; itemCount := newItemCount;
         loading := false; error := None |}
  | REMOVE_FROM_CART productId => remove_case state productId
  | UPDATE_QUANTITY productId qty =>
      if decide (qty ≤ 0) then remove_case state productId
      else
        let newItems :=
          (λ item, if decide (id item = productId) then with_quantity item qty else item)
            <$> items state in
        let newTotal := reduce_total newItems in
        let newItemCount := reduce_count newItems in
        {| items := newItems; total := newTotal; itemCount := newItemCount;
           loading := false; error := None |}
  | CLEAR_CART =>
      {| items := []; total := Num 0; itemCount := 0; loading := false; error := None |}
  | SET_LOADING b =>
      {| items := items state; total := total state; itemCount := itemCount state;
         loading := b; error := error state |}
  | SET_ERROR msg =>
      {| items := items state; total := total state; itemCount := itemCount state;
         loading := false; error := Some msg |}
  end.

(** ** The provider: dispatch, [localStorage] and the console *)

(** [localStorage]: the stored strings, and whether [getItem] or [setItem]
    throw (access denied, quota exceeded). *)
Record Storage : Type := mkStorage {
  entries : gmap string string;
  read_throws : bool;
  write_throws : bool
}.

Record World : Type := mkWorld {
  cart : CartState;
  localStorage : Storage;
  console : list string
}.

Inductive outcome (A : Type) : Type :=
  | Ok (a : A)
  | Throw (err : string).
Arguments Ok {A} a.
Arguments Throw {A} err.

(** A computation of the provider: it changes the world and either returns
    or throws. *)
Definition M (A : Type) : Type := World → World * outcome A.

Definition ret {A} (a : A) : M A := λ w, (w, Ok a).

Definition bind {A B} (m : M A) (k : A → M B) : M B :=
  λ w, match m w with
       | (w', Ok a) => k a w'
       | (w', Throw e) => (w', Throw e)
       end.

Definition throw {A} (e : string) : M A := λ w, (w, Throw e).

(** [try { body } catch (error) { handler }] *)
Definition try_catch {A} (body : M A) (handler : string → M A) : M A :=
  λ w, match body w with
       | (w', Ok a) => (w', Ok a)
       | (w', Throw e) => handler e w'
       end.

#[global] Instance M_ret : MRet M := @ret.
#[global] Instance M_bind : MBind M := λ A B k m, bind m k.

(** [dispatch(action)] of [useReducer(cartReducer, initialState)] *)
Definition dispatch (action : Action) : M unit :=
  λ w, ({| cart := cartReducer (cart w) action;
           localStorage := localStorage w;
           console := console w |}, Ok tt).

Definition get_state : M CartState := λ w, (w, Ok (cart w)).

Definition console_error (msg : string) : M unit :=
  λ w, ({| cart := cart w; localStorage := localStorage w;
           console := console w ++ [msg] |}, Ok tt).

Definition getItem (key : string) : M (option string) :=
  λ w, if read_throws (localStorage w) then (w, Throw "SecurityError"%string)
       else (w, Ok (entries (localStorage w) !! key)).

Definition setItem (key value : string) : M unit :=
  λ w, if write_throws (localStorage w) then (w, Throw "QuotaExceededError"%string)
       else ({| cart := cart w;
                localStorage :=
                  {| entries := <[key := value]> (entries (localStorage w));
                     read_throws := read_throws (localStorage w);
                     write_throws := write_throws (localStorage w) |};
                console := console w |}, Ok tt).

(** [currentUser?.uid || 'guest']; [currentUser] is the uid of the signed-in
    user, if any. *)
Definition userId (currentUser : option string) : string :=
  match currentUser with
  | Some uid => if decide (uid = ""%string) then "guest"%string else uid
  | None => "guest"%string
  end.

(** [`cart_${userId}`] *)
Definition cart_key (currentUser : option string) : string :=
  ("cart_" +:+ userId currentUser)%string.

(** The object the save effect serialises. *)
Record SavedCart : Type := mkSaved {
  sv_items : list CartLineItem;
  sv_total : num;
  sv_itemCount : Z
}.

(** The calls of the public interface. [quantity] of [addToCart] is an
    optional parameter with default [1]; the reducer has the same default
    for a payload without [quantity]. *)
Inductive Call : Type :=
  | AddToCart (product : Product) (quantity : option Z)
  | RemoveFromCart (productId : js_id)
  | UpdateQuantity (productId : js_id) (quantity : Z)
  | ClearCart.

Definition addToCart (product : Product) (quantity : option Z) : M unit :=
  dispatch (ADD_TO_CART product (Some (default 1 quantity))).

Definition removeFromCart (productId : js_id) : M unit :=
  dispatch (REMOVE_FROM_CART productId).

Definition updateQuantity (productId : js_id) (quantity : Z) : M unit :=
  dispatch (UPDATE_QUANTITY productId quantity).

Definition clearCart : M unit := dispatch CLEAR_CART.

Definition call_op (c : Call) : M unit :=
  match c with
  | AddToCart product quantity => addToCart product quantity
  | RemoveFromCart productId => removeFromCart productId
  | UpdateQuantity productId quantity => updateQuantity productId quantity
  | ClearCart => clearCart
  end.

(** The action a call dispatches, and the state the reducer makes of it. *)
Definition call_action (c : Call) : Action :=
  match c with
  | AddToCart product quantity => ADD_TO_CART product (Some (default 1 quantity))
  | RemoveFromCart productId => REMOVE_FROM_CART productId
  | UpdateQuantity productId quantity => UPDATE_QUANTITY productId quantity
  | ClearCart => CLEAR_CART
  end.

Definition after_call (state : CartState) (c : Call) : CartState :=
  cartReducer state (call_action c).

Definition after_calls (state : CartState) (calls : list Call) : CartState :=
  foldl after_call state calls.

Section Provider.

(** [JSON.parse] on a stored string: [None] when it throws. *)
Variable JSON_parse : string → option Payload.
Variable JSON_stringify : SavedCart → string.

Definition parse (s : string) : M Payload :=
  match JSON_parse s with
  | Some payload => ret payload
  | None => throw "SyntaxError"%string
  end.

(** The effect that loads the cart, on mount and when the user changes.
    [if (savedCart)] takes [null] and the empty string for no saved cart. *)
Definition loadCart (currentUser : option string) : M unit :=
  try_catch
    (dispatch (SET_LOADING true) ;;
     savedCart ← getItem (cart_key currentUser) ;
     match savedCart with
     | Some s =>
         if decide (s = ""%string) then dispatch CLEAR_CART
         else (parsedCart ← parse s ; dispatch (LOAD_CART parsedCart))
     | None => dispatch CLEAR_CART
     end)
    (λ _, console_error "Error loading cart:"%string ;;
          dispatch (SET_ERROR "Failed to load cart"%string)).

(** The effect that saves the cart whenever it changes. *)
Definition saveCart (currentUser : option string) : M unit :=
  state ← get_state ;
  if negb (loading state) then
    try_catch
      (setItem (cart_key currentUser)
         (JSON_stringify {| sv_items := items state; sv_total := total state;
                            sv_itemCount := itemCount state |}))
      (λ _, console_error "Error saving cart:"%string)
  else ret tt.

(** A call of the public interface followed by the render it causes, which
    runs the save effect (every reducer case of a call makes a new [items]
    array, so the effect's dependencies have changed). *)
Definition perform (currentUser : option string) (c : Call) : M unit :=
  call_op c ;; saveCart currentUser.

End Provider.

(** ** What the specification's words denote *)

(** [Σ(item.price * item.quantity)] over a list of line items. *)
Fixpoint sum_price_quantity (l : list CartLineItem) : num :=
  match l with
  | [] => Num 0
  | item :: rest =>
      js_add (js_mul (to_num (price item)) (Num (quantity item))) (sum_price_quantity rest)
  end.

(** [Σ(item.quantity)] over a list of line items. *)
Fixpoint sum_quantity (l : list CartLineItem) : Z :=
  match l with
  | [] => 0
  | item :: rest => quantity item + sum_quantity rest
  end.

(** The derived fields agree with the items. *)
Definition consistent (state : CartState) : Prop :=
  total state = sum_price_quantity (items state) ∧
  itemCount state = sum_quantity (items state).

(** The line items that carry a given id. *)
Definition lines_of (pid : js_id) (l : list CartLineItem) : list CartLineItem :=
  filter (λ item, id item = pid) l.

(** The quantity the cart holds of an id: that of its first line, [0] when
    there is none. *)
Definition quantity_of (pid : js_id) (l : list CartLineItem) : Z :=
  match lines_of pid l with
  | line :: _ => quantity line
  | [] => 0
  end.

(** No two line items share an id. *)
Definition unique_ids (l : list CartLineItem) : Prop := NoDup (id <$> l).

(** The ADD_TO_CART case on the items, by recursion on the list: bump the
    first line with the product's id, or append a new line. *)
Fixpoint add_line (product : Product) (q : Z) (l : list CartLineItem) : list CartLineItem :=
  match l with
  | [] => [line_of_product product q]
  | item :: rest =>
      if decide (id item = p_id product)
      then with_quantity item (quantity item + q) :: rest
      else item :: add_line product q rest
  end.

(** ** Classes of calls and of states *)

(** The calls that edit lines: every call but [clearCart]. *)
Definition line_call (c : Call) : bool :=
  match c with
  | ClearCart => false
  | _ => true
  end.

(** The product of an [addToCart] carries an id. *)
Definition has_id (c : Call) : bool :=
  match c with
  | AddToCart product _ => bool_decide (is_Some (p_id product))
  | _ => true
  end.

(** The quantity an [addToCart] adds is positive. *)
Definition adds_positive (c : Call) : bool :=
  match c with
  | AddToCart _ qty => bool_decide (0 < default 1 qty)
  | _ => true
  end.

(** A line without its quantity: what the spread [{...item, quantity}]
    keeps of it. *)
Definition descriptor (item : CartLineItem) : CartLineItem := with_quantity item 0.

(** The state a call leaves when it changes no line. *)
Definition settled (state : CartState) : CartState :=
  {| items := items state;
     total := sum_price_quantity (items state);
     itemCount := sum_quantity (items state);
     loading := false;
     error := None |}.

(** What a failed load leaves of a cart. *)
Definition flagged (state : CartState) : CartState :=
  {| items := items state; total := total state; itemCount := itemCount state;
     loading := false; error := Some "Failed to load cart"%string |}.

(** ** Sample data *)

Definition sku1 : Product :=
  {| p_id := Some "sku1"%string; p_name := Some "Lamp"%string; p_price := Some 1000;
     p_category := None; p_imageUrl := None; p_quantity := None |}.

Definition sku2 : Product :=
  {| p_id := Some "sku2"%string; p_name := Some "Desk"%string; p_price := Some 250;
     p_category := Some "office"%string; p_imageUrl := None; p_quantity := Some 7 |}.

(** A descriptor without a price, and one without an id. *)
Definition no_price : Product :=
  {| p_id := Some "sku3"%string; p_name := Some "Chair"%string; p_price := None;
     p_category := None; p_imageUrl := None; p_quantity := None |}.

Definition no_id : Product :=
  {| p_id := None; p_name := Some "Shelf"%string; p_price := Some 40;
     p_category := None; p_imageUrl := None; p_quantity := None |}.

(** The cart after one lamp went in. *)
Definition one_lamp : CartState := after_call initialState (AddToCart sku1 (Some 1)).

(** The cart while a load is in flight, and after a load failed on mount. *)
Definition while_loading : CartState := cartReducer initialState (SET_LOADING true).

Definition load_failed : CartState :=
  cartReducer initialState (SET_ERROR "Failed to load cart"%string).

(** A store that can be neither read nor written. *)
Definition unusable_store : Storage :=
  {| entries := ∅; read_throws := true; write_throws := true |}.

(** A cart as it may be stored: one lamp at 10, and a total of 999. *)
Definition stale_payload : Payload :=
  {| pl_items := Some [ {| id := Some "sku1"%string; name := Some "Lamp"%string;
                           price := Some 10; category := None; imageUrl := None;
                           quantity := 1 |} ];
     pl_total := Some 999;
     pl_itemCount := Some 1 |}.

(** A stand-in for [JSON.parse] that knows one string. *)
Definition parse_stale (s : string) : option Payload :=
  if decide (s = "stale"%string) then Some stale_payload else None.

(** A cart adopted from a store whose count disagrees with its one line:
    LOAD_CART takes the stored count of 7 as it is. *)
Definition stale_count : CartState :=
  cartReducer initialState
    (LOAD_CART {| pl_items := Some [line_of_product sku1 1];
                  pl_total := Some 1000; pl_itemCount := Some 7 |}).

(** Unfolds the monad down to functions on worlds. *)
Ltac run_effect :=
  unfold mbind, M_bind, mret, M_ret, bind, ret, throw, try_catch,
    dispatch, get_state, console_error, getItem, setItem;
  simpl.

(** ** Persisting and switching users *)

#[global] Instance SavedCart_eq_dec : EqDecision SavedCart.
Proof. solve_decision. Defined.

(** The object the save effect serialises for a state. *)
Definition saved_of (state : CartState) : SavedCart :=
  {| sv_items := items state; sv_total := total state; sv_itemCount := itemCount state |}.

(** A number as JSON carries it: [JSON.stringify] writes [NaN] as [null]. *)
Definition json_number (n : num) : option Z :=
  match n with
  | Num z => Some z
  | NaN => None
  end.

(** What [JSON.parse] makes of the text [JSON.stringify] wrote for a saved
    cart. *)
Definition payload_of_saved (saved : SavedCart) : Payload :=
  {| pl_items := Some (sv_items saved);
     pl_total := json_number (sv_total saved);
     pl_itemCount := Some (sv_itemCount saved) |}.

(** On this text the two JSON functions behave as in the browser: the text
    is not empty and parses back to the object. *)
Definition json_round_trip (JSON_parse : string → option Payload)
    (JSON_stringify : SavedCart → string) (saved : SavedCart) : Prop :=
  JSON_stringify saved ≠ ""%string ∧
  JSON_parse (JSON_stringify saved) = Some (payload_of_saved saved).

(** A state as it comes back from the store: a [NaN] total comes back [0]. *)
Definition reloaded (state : CartState) : CartState :=
  {| items := items state;
     total := Num (or_zero (json_number (total state)));
     itemCount := itemCount state;
     loading := false;
     error := None |}.

(** The world with another cart in memory. *)
Definition with_cart (w : World) (state : CartState) : World :=
  {| cart := state; localStorage := localStorage w; console := console w |}.

(** A change of [currentUser]: the load effect runs for the new user, and
    the save effect follows the state it dispatched. *)
Definition switch_user (JSON_parse : string → option Payload)
    (JSON_stringify : SavedCart → string) (currentUser : option string) : M unit :=
  loadCart JSON_parse currentUser ;; saveCart JSON_stringify currentUser.

(** Stand-ins for the JSON functions that know the empty cart and one other
    cart. *)
Definition stringify_two (saved : SavedCart) : string :=
  if decide (saved = saved_of initialState) then "empty"%string else "cart"%string.

Definition parse_two (known : SavedCart) (s : string) : option Payload :=
  if decide (s = "empty"%string) then Some (payload_of_saved (saved_of initialState))
  else if decide (s = "cart"%string) then Some (payload_of_saved known)
  else None.

(** A store that works and holds nothing. *)
Definition empty_store : Storage :=
  {| entries := ∅; read_throws := false; write_throws := false |}.

(** ** The product page (components/customer/ProductDetails.js) *)

(** A product as the catalogue returns it. *)
Record CatalogProduct : Type := mkCatalogProduct {
  cp_id : js_id;
  cp_name : option string;
  cp_price : option Z;
  cp_category : option string;
  cp_imageUrl : option string;
  cp_imageUrls : option (list string)
}.

(** [product.imageUrls && product.imageUrls.length > 0 ? product.imageUrls[0]
    : product.imageUrl] *)
Definition mainImageUrl (product : CatalogProduct) : option string :=
  match cp_imageUrls product with
  | Some (url :: _) => Some url
  | _ => cp_imageUrl product
  end.

(** What [handleAddToCart] did: where it sent the browser, the call it made
    on the cart, and the quantity the page shows afterwards. *)
Record AddOutcome : Type := mkAddOutcome {
  ao_navigate : option string;
  ao_call : option Call;
  ao_quantity : Z
}.

(** The descriptor the page hands to [addToCart]: id, name, price, the main
    image and the chosen quantity; no category. *)
Definition page_descriptor (product : CatalogProduct) (chosen : Z) : Product :=
  {| p_id := cp_id product; p_name := cp_name product; p_price := cp_price product;
     p_category := None; p_imageUrl := mainImageUrl product;
     p_quantity := Some chosen |}.

(** [handleAddToCart] of the product page, for the loaded product, the
    signed-in user and the quantity chosen on the page. The quantity goes
    into the descriptor; [addToCart] gets no second argument. *)
Definition handleAddToCart (product : option CatalogProduct)
    (currentUser : option string) (chosen : Z) : AddOutcome :=
  match product with
  | None => {| ao_navigate := None; ao_call := None; ao_quantity := chosen |}
  | Some product =>
      match currentUser with
      | None =>
          {| ao_navigate := Some "/login"%string; ao_call := None; ao_quantity := chosen |}
      | Some _ =>
          {| ao_navigate := None;
             ao_call := Some (AddToCart (page_descriptor product chosen) None);
             ao_quantity := 1 |}
      end
  end.

(** A product of the catalogue. *)
Definition lamp : CatalogProduct :=
  {| cp_id := Some "sku1"%string; cp_name := Some "Lamp"%string; cp_price := Some 1000;
     cp_category := Some "light"%string; cp_imageUrl := None;
     cp_imageUrls := Some ["lamp-front.jpg"%string; "lamp-side.jpg"%string] |}.

(** ** The checkout form (components/customer/Cart.js, CheckoutForm) *)

(** The characters [String.prototype.trim] strips, among the code units
    below 256: tab, line feed, vertical tab, form feed, carriage return,
    space and no-break space. *)
Definition whitespace_codes : list N := [9; 10; 11; 12; 13; 32; 160]%N.

Definition is_whitespace (a : ascii) : bool :=
  bool_decide (N_of_ascii a ∈ whitespace_codes).

Fixpoint drop_whitespace (l : list ascii) : list ascii :=
  match l with
  | a :: rest => if is_whitespace a then drop_whitespace rest else l
  | [] => []
  end.

(** [s.trim()] *)
Definition trim (s : string) : string :=
  String.string_of_list_ascii
    (reverse (drop_whitespace (reverse (drop_whitespace (String.list_ascii_of_string s))))).

(** [!s.trim()] *)
Definition blank (s : string) : bool := bool_decide (trim s = ""%string).

Record FormData : Type := mkFormData {
  fd_firstName : string;
  fd_lastName : string;
  fd_email : string;
  fd_phone : string;
  fd_address : string;
  fd_city : string;
  fd_state : string;
  fd_zipCode : string;
  fd_country : string;
  fd_paymentMethod : string
}.

Record OrderItem : Type := mkOrderItem {
  oi_id : js_id;
  oi_name : option string;
  oi_price : option Z;
  oi_quantity : Z;
  oi_imageUrl : option string
}.

Record CustomerInfo : Type := mkCustomerInfo {
  ci_firstName : string;
  ci_lastName : string;
  ci_email : string;
  ci_phone : string;
  ci_address : string;
  ci_city : string;
  ci_state : string;
  ci_zipCode : string;
  ci_country : string
}.

Record Order : Type := mkOrder {
  o_userId : string;
  o_customerInfo : CustomerInfo;
  o_items : list OrderItem;
  o_paymentMethod : string;
  o_total : num;
  o_status : string
}.

(** What [handleSubmit] did: the message it set, the order it handed to
    [addOrder], the call it made on the cart and where it sent the browser. *)
Record SubmitOutcome : Type := mkSubmitOutcome {
  so_error : option string;
  so_order : option Order;
  so_call : option Call;
  so_navigate : option string
}.

Definition rejected (msg : string) : SubmitOutcome :=
  {| so_error := Some msg; so_order := None; so_call := None; so_navigate := None |}.

(** The order data [handleSubmit] prepares. *)
Definition orderData (formData : FormData) (currentUser : option string)
    (items : list CartLineItem) (total : num) : Order :=
  {| o_userId := match currentUser with Some uid => uid | None => "guest"%string end;
     o_customerInfo :=
       {| ci_firstName := fd_firstName formData; ci_lastName := fd_lastName formData;
          ci_email := fd_email formData; ci_phone := fd_phone formData;
          ci_address := fd_address formData; ci_city := fd_city formData;
          ci_state := fd_state formData; ci_zipCode := fd_zipCode formData;
          ci_country := fd_country formData |};
     o_items := (λ item, {| oi_id := id item; oi_name := name item;
                            oi_price := price item; oi_quantity := quantity item;
                            oi_imageUrl := imageUrl item |}) <$> items;
     o_paymentMethod := fd_paymentMethod formData;
     o_total := total;
     o_status := "pending"%string |}.

(** [handleSubmit] of the checkout form. [addOrder] tells whether saving the
    order succeeded; when it rejects, the handler's catch sets a message. *)
Definition handleSubmit (formData : FormData) (currentUser : option string)
    (items : list CartLineItem) (total : num) (addOrder : Order → bool) : SubmitOutcome :=
  if blank (fd_firstName formData) then rejected "First name is required"
  else if blank (fd_lastName formData) then rejected "Last name is required"
  else if blank (fd_email formData) then rejected "Email is required"
  else if blank (fd_phone formData) then rejected "Phone number is required"
  else if blank (fd_address formData) then rejected "Address is required"
  else if blank (fd_city formData) then rejected "City is required"
  else if blank (fd_state formData) then rejected "State is required"
  else if blank (fd_zipCode formData) then rejected "Zip code is required"
  else if blank (fd_country formData) then rejected "Country is required"
  else
    let order := orderData formData currentUser items total in
    if addOrder order then
      {| so_error := None; so_order := Some order; so_call := Some ClearCart;
         so_navigate := Some "/"%string |}
    else
      {| so_error :=
           Some "An error occurred while processing your order. Please try again."%string;
         so_order := Some order; so_call := None; so_navigate := None |}.

(** The nine fields the form requires. *)
Definition required_fields (formData : FormData) : list string :=
  [fd_firstName formData; fd_lastName formData; fd_email formData;
   fd_phone formData; fd_address formData; fd_city formData;
   fd_state formData; fd_zipCode formData; fd_country formData].

(** A string of whitespace only (the empty string included). *)
Definition all_whitespace (s : string) : Prop :=
  Forall (λ a, is_whitespace a = true) (String.list_ascii_of_string s).

Definition filled_form : FormData :=
  {| fd_firstName := "Ada"; fd_lastName := "Byron"; fd_email := "ada@example.org";
     fd_phone := "555 0100"; fd_address := "12 St James Square"; fd_city := "London";
     fd_state := "LDN"; fd_zipCode := "SW1"; fd_country := "UK";
     fd_paymentMethod := "credit_card" |}%string.

(** ** The product list (components/customer/Cart.js, Products) *)

(** [Math.ceil(a / b)] for integers [a] and a positive integer [b]. *)
Definition ceil_div (a b : Z) : Z := - ((- a) / b).

Definition productsPerPage : Z := 12.

(** [Math.ceil(filtered.length / productsPerPage)] *)
Definition totalPages {A} (filtered : list A) : Z :=
  ceil_div (Z.of_nat (length filtered)) productsPerPage.

(** [arr.slice(start, end)]: a negative index counts from the end, and both
    are clamped to the array. *)
Definition js_slice {A} (start stop : Z) (l : list A) : list A :=
  let len := Z.of_nat (length l) in
  let k := if decide (start < 0) then Z.max (len + start) 0 else Z.min start len in
  let final := if decide (stop < 0) then Z.max (len + stop) 0 else Z.min stop len in
  take (Z.to_nat (final - k)) (drop (Z.to_nat k) l).

(** [getCurrentPageProducts] *)
Definition getCurrentPageProducts {A} (currentPage : Z) (filteredProducts : list A) : list A :=
  let startIndex := (currentPage - 1) * productsPerPage in
  let endIndex := startIndex + productsPerPage in
  js_slice startIndex endIndex filteredProducts.

(** The numbered page buttons of [PaginationComponent]: nothing for a single
    page, else the pages from [startPage] to [endPage]. *)
Definition page_window (currentPage totalPages : Z) : option (Z * Z) :=
  if decide (totalPages ≤ 1) then None
  else
    let maxPagesToShow := 5 in
    let startPage := Z.max 1 (currentPage - maxPagesToShow / 2) in
    let endPage := startPage + maxPagesToShow - 1 in
    if decide (endPage > totalPages)
    then Some (Z.max 1 (totalPages - maxPagesToShow + 1), totalPages)
    else Some (startPage, endPage).

(** ** Login rate limiting (utils/security.js) *)

(** An entry of the module's [loginAttempts] object. *)
Record LoginRecord : Type := mkLoginRecord {
  attempts : Z;
  firstAttempt : Z;
  lastAttempt : Z
}.

Record RateLimit : Type := mkRateLimit {
  allowed : bool;
  timeLeft : option Z;
  message : option string
}.

Definition windowMs : Z := 15 * 60 * 1000.
Definition maxAttempts : Z := 5.

Definition fresh_record (now : Z) : LoginRecord :=
  {| attempts := 1; firstAttempt := now; lastAttempt := now |}.

Definition go_ahead : RateLimit :=
  {| allowed := true; timeLeft := None; message := None |}.

(** [checkLoginRateLimit(email)] at the time [now = Date.now()], on the
    [loginAttempts] object, which it updates. An empty email is falsy.
    [Math.ceil(ms / 1000 / 60)] is the integer ceiling of [ms / 60000]. *)
Definition checkLoginRateLimit (email : string) (now : Z)
    (loginAttempts : gmap string LoginRecord) : gmap string LoginRecord * RateLimit :=
  if decide (email = ""%string) then (loginAttempts, go_ahead)
  else
    match loginAttempts !! email with
    | None => (<[email := fresh_record now]> loginAttempts, go_ahead)
    | Some userAttempts =>
        if decide (now - firstAttempt userAttempts > windowMs)
        then (<[email := fresh_record now]> loginAttempts, go_ahead)
        else
          let userAttempts' :=
            {| attempts := attempts userAttempts + 1;
               firstAttempt := firstAttempt userAttempts;
               lastAttempt := now |} in
          let loginAttempts' := <[email := userAttempts']> loginAttempts in
          if decide (attempts userAttempts' > maxAttempts) then
            let left := ceil_div (windowMs - (now - firstAttempt userAttempts)) 60000 in
            (loginAttempts',
             {| allowed := false;
                timeLeft := Some left;
                message :=
                  Some ("Too many login attempts. Please try again in "
                        +:+ pretty left +:+ " minutes.")%string |})
          else (loginAttempts', go_ahead)
    end.

(** [resetLoginAttempts(email)] *)
Definition resetLoginAttempts (email : string)
    (loginAttempts : gmap string LoginRecord) : gmap string LoginRecord :=
  if decide (email = ""%string) then loginAttempts
  else
    match loginAttempts !! email with
    | Some _ => delete email loginAttempts
    | None => loginAttempts
    end.

(** Login attempts of one email at the given times, one after the other:
    the table they leave and whether each was allowed. *)
Fixpoint attempt_at (email : string) (times : list Z)
    (loginAttempts : gmap string LoginRecord) : gmap string LoginRecord * list bool :=
  match times with
  | [] => (loginAttempts, [])
  | now :: later =>
      let checked := checkLoginRateLimit email now loginAttempts in
      let rest := attempt_at email later checked.1 in
      (rest.1, allowed checked.2 :: rest.2)
  end.

(** ** The session timeout (contexts/AuthContext.js, AuthProvider) *)

(** The object kept under [user_session]. *)
Record Session : Type := mkSession {
  ss_uid : string;
  ss_lastActivity : Z
}.

(** What the provider's session code reads and writes: the session as
    [secureStorage.getItem('user_session')] returns it, the CSRF token of
    session storage, and whether [signOut] was requested. *)
Record AuthStore : Type := mkAuthStore {
  user_session : option Session;
  csrfToken : option string;
  signOutRequested : bool
}.

Definition sessionTimeout : Z := 30 * 60 * 1000.

(** The part of [logout] that runs before its first [await]. *)
Definition logout (store : AuthStore) : AuthStore :=
  {| user_session := None; csrfToken := Some ""%string; signOutRequested := true |}.

(** [checkSessionTimeout()] at the time [now]. A [lastActivity] of [0] is
    falsy. *)
Definition checkSessionTimeout (now : Z) (store : AuthStore) : AuthStore * bool :=
  match user_session store with
  | Some sessionData =>
      if decide (ss_lastActivity sessionData = 0) then (store, false)
      else if decide (now - ss_lastActivity sessionData > sessionTimeout)
      then (logout store, true)
      else ({| user_session := Some {| ss_uid := ss_uid sessionData;
                                       ss_lastActivity := now |};
               csrfToken := csrfToken store;
               signOutRequested := signOutRequested store |}, false)
  | None => (store, false)
  end.

(** [activityHandler], on a mouse move, key press, click or scroll. *)
Definition activityHandler (now : Z) (store : AuthStore) : AuthStore :=
  match user_session store with
  | Some sessionData =>
      if decide (ss_uid sessionData = ""%string) then store
      else {| user_session := Some {| ss_uid := ss_uid sessionData;
                                      ss_lastActivity := now |};
              csrfToken := csrfToken store;
              signOutRequested := signOutRequested store |}
  | None => store
  end.

(** What happens to the session: the minutely timeout check, or activity of
    the user. *)
Inductive SessionEvent : Type :=
  | TimeoutCheck (now : Z)
  | UserActivity (now : Z).

Definition event_time (e : SessionEvent) : Z :=
  match e with
  | TimeoutCheck now => now
  | UserActivity now => now
  end.

(** The store after an event, and whether the event found the session
    expired. *)
Definition session_step (store : AuthStore) (e : SessionEvent) : AuthStore * bool :=
  match e with
  | TimeoutCheck now => checkSessionTimeout now store
  | UserActivity now => (activityHandler now store, false)
  end.

Fixpoint session_run (store : AuthStore) (events : list SessionEvent) : AuthStore * list bool :=
  match events with
  | [] => (store, [])
  | e :: later =>
      let stepped := session_step store e in
      let rest := session_run stepped.1 later in
      (rest.1, stepped.2 :: rest.2)
  end.

(** Each event comes at most [gap] after the one before, the first at most
    [gap] after [start]; no event comes at time [0]. *)
Fixpoint spaced (gap start : Z) (events : list SessionEvent) : Prop :=
  match events with
  | [] => True
  | e :: later =>
      event_time e - start ≤ gap ∧ event_time e ≠ 0 ∧ spaced gap (event_time e) later
  end.

(** ** CSRF tokens (utils/security.js) *)

Definition hex_digits : list ascii :=
  String.list_ascii_of_string "0123456789abcdef".

Definition hex_digit (n : N) : ascii := nth (N.to_nat n) hex_digits "0"%char.

(** The value of a hexadecimal digit, 16 for any other character. *)
Definition hex_value (a : ascii) : N :=
  match list_find (λ d, d = a) hex_digits with
  | Some (i, _) => N.of_nat i
  | None => 16
  end.

(** [byte.toString(16)] for a byte. *)
Definition toString16 (byte : N) : list ascii :=
  if decide (byte < 16)%N then [hex_digit byte]
  else [hex_digit (byte / 16); hex_digit (byte mod 16)].

(** [s.padStart(2, '0')] *)
Definition padStart2 (s : list ascii) : list ascii :=
  replicate (2 - length s) "0"%char ++ s.

(** [generateCSRFToken] on the bytes [getRandomValues] filled in. *)
Definition generateCSRFToken (randomBytes : list N) : string :=
  String.string_of_list_ascii
    (concat ((λ byte, padStart2 (toString16 byte)) <$> randomBytes)).

(** The bytes are bytes. *)
Definition bytes (l : list N) : Prop := Forall (λ b, (b < 256)%N) l.

(** ** The secure storage wrapper (utils/security.js, secureStorage) *)

(** A JavaScript string as its UTF-16 code units. *)
Abbreviation js_string := (list N).

Definition units_of (s : string) : js_string := N_of_ascii <$> String.list_ascii_of_string s.

(** Every code unit is below 256: the strings [btoa] accepts. *)
Definition latin1 (s : js_string) : bool := forallb (λ c, c <? 256)%N s.

(** [secret.charCodeAt(i % secret.length)]: [None] is [NaN], which an empty
    secret gives at every index. *)
Definition key_unit (secret : js_string) (i : nat) : option N :=
  secret !! (i mod length secret)%nat.

(** [c ^ k], where [NaN] counts as [0]. *)
Definition xor_unit (c : N) (k : option N) : N := N.lxor c (default 0%N k).

(** [s.split('').map((char, i) => String.fromCharCode(char.charCodeAt(0) ^
    secret.charCodeAt(i % secret.length))).join('')] *)
Definition xor_with (secret s : js_string) : js_string :=
  imap (λ i c, xor_unit c (key_unit secret i)) s.

Definition default_secret : js_string := units_of "default-secret-key".

Section SecureStorage.

(** The data stored, with its truthiness and its JSON text. [stringify] is
    [None] when [JSON.stringify] throws or gives [undefined]; [parse_json] is
    [None] when [JSON.parse] throws or gives [null]. [btoa] is applied to
    Latin-1 strings only; [atob] is [None] when it throws. *)
Context {Data : Type}.
Variable truthy : Data → bool.
Variable stringify : Data → option js_string.
Variable parse_json : js_string → option Data.
Variable btoa : js_string → string.
Variable atob : string → option js_string.

(** [secureStorage.encrypt(data, secret)]; the empty string when anything
    fails. *)
Definition encrypt (data : Data) (secret : option js_string) : string :=
  let secret := default default_secret secret in
  if negb (truthy data) then ""%string
  else
    match stringify data with
    | None => ""%string
    | Some jsonString =>
        let mixed := xor_with secret jsonString in
        if latin1 mixed then btoa mixed else ""%string
    end.

(** [secureStorage.decrypt(encryptedData, secret)]; [None] is [null]. *)
Definition decrypt (encryptedData : string) (secret : option js_string) : option Data :=
  let secret := default default_secret secret in
  if decide (encryptedData = ""%string) then None
  else
    match atob encryptedData with
    | None => None
    | Some raw => parse_json (xor_with secret raw)
    end.

(** [secureStorage.setItem(key, value, secret)] *)
Definition secure_setItem (key : string) (value : Data) (secret : option js_string) : M unit :=
  setItem key (encrypt value secret).

(** [secureStorage.getItem(key, secret)] *)
Definition secure_getItem (key : string) (secret : option js_string) : M (option Data) :=
  encrypted ← getItem key ;
  match encrypted with
  | None => mret None
  | Some encrypted =>
      if decide (encrypted = ""%string) then mret None
      else mret (decrypt encrypted secret)
  end.

End SecureStorage.

(** Stand-ins for [btoa] and [atob] that write a Latin-1 string as it is. *)
Definition plain_btoa (s : js_string) : string :=
  String.string_of_list_ascii (ascii_of_N <$> s).

Definition plain_atob (s : string) : option js_string := Some (units_of s).

(** ** Input sanitising (utils/security.js, sanitizeInput) *)

(** The double quote. *)
Definition dquote : ascii := ascii_of_nat 34.

(** [s.replace(/c/g, by)] for a single character [c]. *)
Fixpoint replace_char (c : ascii) (by_ : list ascii) (s : list ascii) : list ascii :=
  match s with
  | [] => []
  | a :: rest => (if decide (a = c) then by_ else [a]) ++ replace_char c by_ rest
  end.

(** An ASCII letter in lower case; other characters as they are. Matching
    with the [i] flag compares ASCII letters this way. *)
Definition ascii_lower (a : ascii) : ascii :=
  let n := N_of_ascii a in
  if decide (65 ≤ n ≤ 90)%N then ascii_of_N (n + 32) else a.

(** [s] starts with [prefix], letters compared without case. *)
Fixpoint starts_with_ci (prefix s : list ascii) : bool :=
  match prefix, s with
  | [], _ => true
  | p :: prefix', a :: s' => bool_decide (ascii_lower a = p) && starts_with_ci prefix' s'
  | _ :: _, [] => false
  end.

(** [str.match(/^https?:\/\//i)] *)
Definition isUrl (str : list ascii) : bool :=
  starts_with_ci (String.list_ascii_of_string "http://") str
  || starts_with_ci (String.list_ascii_of_string "https://") str.

Definition sanitize_url (str : list ascii) : list ascii :=
  replace_char "'" (String.list_ascii_of_string "&#x27;")
    (replace_char dquote (String.list_ascii_of_string "&quot;")
       (replace_char ">" (String.list_ascii_of_string "&gt;")
          (replace_char "<" (String.list_ascii_of_string "&lt;") str))).

Definition sanitize_text (str : list ascii) : list ascii :=
  replace_char "/" (String.list_ascii_of_string "&#x2F;")
    (replace_char "'" (String.list_ascii_of_string "&#x27;")
       (replace_char dquote (String.list_ascii_of_string "&quot;")
          (replace_char ">" (String.list_ascii_of_string "&gt;")
             (replace_char "<" (String.list_ascii_of_string "&lt;")
                (replace_char "&" (String.list_ascii_of_string "&amp;") str))))).

(** [sanitizeInput(input)] for a string; the empty string is falsy and
    returned as it is. *)
Definition sanitizeInput (input : string) : string :=
  if decide (input = ""%string) then input
  else
    let str := String.list_ascii_of_string input in
    if isUrl str then String.string_of_list_ascii (sanitize_url str)
    else String.string_of_list_ascii (sanitize_text str).

(** The characters of a string. *)
Definition chars (s : string) : list ascii := String.list_ascii_of_string s.

(** What one pass over the string writes for a character, in each mode. *)
Definition escape_url (a : ascii) : list ascii :=
  if decide (a = "<"%char) then String.list_ascii_of_string "&lt;"
  else if decide (a = ">"%char) then String.list_ascii_of_string "&gt;"
  else if decide (a = dquote) then String.list_ascii_of_string "&quot;"
  else if decide (a = "'"%char) then String.list_ascii_of_string "&#x27;"
  else [a].

Definition escape_text (a : ascii) : list ascii :=
  if decide (a = "&"%char) then String.list_ascii_of_string "&amp;"
  else if decide (a = "/"%char) then String.list_ascii_of_string "&#x2F;"
  else escape_url a.

(** The characters the text mode rewrites. *)
Definition rewritten (a : ascii) : bool :=
  bool_decide (a ∈ ["&"; "<"; ">"; dquote; "'"; "/"]%char).

(** Not one of <, >, double quote, single quote; and not a slash either. *)
Definition url_safe (a : ascii) : bool :=
  negb (bool_decide (a ∈ ["<"; ">"; dquote; "'"]%char)).

Definition text_safe (a : ascii) : bool :=
  negb (bool_decide (a ∈ ["<"; ">"; dquote; "'"; "/"]%char)).

(** ** Password strength (utils/security.js, checkPasswordStrength) *)

Record Strength : Type := mkStrength {
  score : Z;
  feedback : string
}.

Definition code_between (lo hi : N) (a : ascii) : bool :=
  bool_decide (lo ≤ N_of_ascii a ≤ hi)%N.

(** [/[A-Z]/], [/[a-z]/], [/[0-9]/] and [/[^A-Za-z0-9]/] on one character. *)
Definition is_upper : ascii → bool := code_between 65 90.
Definition is_lower : ascii → bool := code_between 97 122.
Definition is_digit : ascii → bool := code_between 48 57.
Definition is_special (a : ascii) : bool := negb (is_upper a || is_lower a || is_digit a).

(** [toLowerCase] on a code unit below 256: the ASCII letters, and the
    Latin-1 capitals other than the multiplication sign. *)
Definition char_toLowerCase (a : ascii) : ascii :=
  let n := N_of_ascii a in
  if decide ((65 ≤ n ≤ 90) ∨ (192 ≤ n ≤ 222 ∧ n ≠ 215))%N then ascii_of_N (n + 32) else a.

Definition toLowerCase (s : string) : string :=
  String.string_of_list_ascii (char_toLowerCase <$> String.list_ascii_of_string s).

Definition commonPasswords : list string :=
  ["password"; "admin"; "123456"; "qwerty"; "welcome"]%string.

(** The message pushed when a check fails. *)
Definition unless (passed : bool) (msg : string) : list string :=
  if passed then [] else [msg].

(** [checkPasswordStrength(password)]; the empty password is falsy. *)
Definition checkPasswordStrength (password : string) : Strength :=
  match password with
  | EmptyString => {| score := 0; feedback := "Password is required" |}
  | _ =>
    let cs := String.list_ascii_of_string password in
    let long := bool_decide (8 ≤ String.length password)%nat in
    let upper := existsb is_upper cs in
    let lower := existsb is_lower cs in
    let digit := existsb is_digit cs in
    let special := existsb is_special cs in
    let common := bool_decide (toLowerCase password ∈ commonPasswords) in
    let counted :=
      Z.b2z long + Z.b2z upper + Z.b2z lower + Z.b2z digit + Z.b2z special in
    let messages :=
      unless long "Password should be at least 8 characters long"
      ++ unless upper "Add uppercase letters"
      ++ unless lower "Add lowercase letters"
      ++ unless digit "Add numbers"
      ++ unless special "Add special characters"
      ++ unless (negb common) "This is a commonly used password" in
    let joined := String.concat ", " messages in
    {| score := if common then 0 else counted;
       feedback := match joined with
                   | EmptyString => "Strong password"
                   | _ => joined
                   end |}
  end.

(** ** The reducer on doubles *)

(** The numbers of the cart are JavaScript numbers: IEEE 754 binary64
    values, whose sums and products are rounded, and whose NaN [==] holds
    different from itself.  For whole prices and quantities the integers of
    the model above are those values.  [Doubles] embeds the reducer a second
    time, case by case from the same source, with a [float] (binary64) for
    every number, so that a price with a fractional part and the NaN that
    [parseInt] hands to [updateQuantity] (Cart.js, handleQuantityChange) are
    values of the model.  A field that may be missing is an [option] as
    before. *)
Module Doubles.
Import PrimFloat.

#[local] Set Warnings "-inexact-float".

(** [ToNumber] of a numeric field that may be missing: [undefined] gives
    NaN. *)
Definition to_number (v : option float) : float :=
  match v with
  | Some x => x
  | None => nan
  end.

(** A number in a condition or on the left of [||]: [0], [-0] and NaN are
    falsy. *)
Definition truthy (x : float) : bool := negb (is_nan x || (x =? 0)%float).

Record Product : Type := mkProduct {
  p_id : js_id;
  p_name : option string;
  p_price : option float;
  p_category : option string;
  p_imageUrl : option string;
  p_quantity : option float
}.

Record CartLineItem : Type := mkItem {
  id : js_id;
  name : option string;
  price : option float;
  category : option string;
  imageUrl : option string;
  quantity : float
}.

Record CartState : Type := mkState {
  items : list CartLineItem;
  total : float;
  itemCount : float;
  loading : bool;
  error : option string
}.

Record Payload : Type := mkPayload {
  pl_items : option (list CartLineItem);
  pl_total : option float;
  pl_itemCount : option float
}.

Definition initialState : CartState :=
  {| items := []; total := 0%float; itemCount := 0%float; loading := false;
     error := None |}.

Inductive Action : Type :=
  | LOAD_CART (payload : Payload)
  | ADD_TO_CART (product : Product) (quantity : option float)
  | REMOVE_FROM_CART (productId : js_id)
  | UPDATE_QUANTITY (productId : js_id) (qty : float)
  | CLEAR_CART
  | SET_LOADING (payload : bool)
  | SET_ERROR (payload : string).

(** [{ ...item, quantity: q }] *)
Definition with_quantity (item : CartLineItem) (q : float) : CartLineItem :=
  {| id := id item; name := name item; price := price item;
     category := category item; imageUrl := imageUrl item; quantity := q |}.

(** [{ ...product, quantity }] *)
Definition line_of_product (product : Product) (q : float) : CartLineItem :=
  {| id := p_id product; name := p_name product; price := p_price product;
     category := p_category product; imageUrl := p_imageUrl product;
     quantity := q |}.

(** [items.reduce((sum, item) => sum + (item.price * item.quantity), 0)] *)
Definition reduce_total (l : list CartLineItem) : float :=
  foldl (λ sum item, (sum + to_number (price item) * quantity item)%float) 0%float l.

(** [items.reduce((sum, item) => sum + item.quantity, 0)] *)
Definition reduce_count (l : list CartLineItem) : float :=
  foldl (λ sum item, (sum + quantity item)%float) 0%float l.

(** [v || 0] on a numeric field. *)
Definition or_zero (v : option float) : float :=
  match v with
  | Some x => if truthy x then x else 0%float
  | None => 0%float
  end.

Definition remove_case (state : CartState) (productId : js_id) : CartState :=
  let newItems := filter (λ item, id item ≠ productId) (items state) in
  let newTotal := reduce_total newItems in
  let newItemCount := reduce_count newItems in
  {| items := newItems; total := newTotal; itemCount := newItemCount;
     loading := false; error := None |}.

Definition cartReducer (state : CartState) (action : Action) : CartState :=
  match action with
  | LOAD_CART payload =>
      {| items := or_empty (pl_items payload);
         total := or_zero (pl_total payload);
         itemCount := or_zero (pl_itemCount payload);
         loading := false;
         error := None |}
  | ADD_TO_CART product payload_quantity =>
      let qty := default 1%float payload_quantity in
      let existingItemIndex := findIndex (λ item, id item = p_id product) (items state) in
      let newItems :=
        if decide (0 ≤ existingItemIndex) then
          imap (λ index item,
                  if decide (Z.of_nat index = existingItemIndex)
                  then with_quantity item (quantity item + qty)%float
                  else item)
               (items state)
        else items state ++ [line_of_product product qty] in
      let newTotal := reduce_total newItems in
      let newItemCount := reduce_count newItems in
      {| items := newItems; total := newTotal; itemCount := newItemCount;
         loading := false; error := None |}
  | REMOVE_FROM_CART productId => remove_case state productId
  | UPDATE_QUANTITY productId qty =>
      if (qty <=? 0)%float then remove_case state productId
      else
        let newItems :=
          (λ item, if decide (id item = productId) then with_quantity item qty else item)
            <$> items state in
        let newTotal := reduce_total newItems in
        let newItemCount := reduce_count newItems in
        {| items := newItems; total := newTotal; itemCount := newItemCount;
           loading := false; error := None |}
  | CLEAR_CART =>
      {| items := []; total := 0%float; itemCount := 0%float; loading := false;
         error := None |}
  | SET_LOADING b =>
      {| items := items state; total := total state; itemCount := itemCount state;
         loading := b; error := error state |}
  | SET_ERROR msg =>
      {| items := items state; total := total state; itemCount := itemCount state;
         loading := false; error := Some msg |}
  end.

(** The calls of the public interface and the actions they dispatch. *)
Inductive Call : Type :=
  | AddToCart (product : Product) (quantity : option float)
  | RemoveFromCart (productId : js_id)
  | UpdateQuantity (productId : js_id) (quantity : float)
  | ClearCart.

Definition call_action (c : Call) : Action :=
  match c with
  | AddToCart product quantity => ADD_TO_CART product (Some (default 1%float quantity))
  | RemoveFromCart productId => REMOVE_FROM_CART productId
  | UpdateQuantity productId quantity => UPDATE_QUANTITY productId quantity
  | ClearCart => CLEAR_CART
  end.

Definition after_call (state : CartState) (c : Call) : CartState :=
  cartReducer state (call_action c).

Definition after_calls (state : CartState) (calls : list Call) : CartState :=
  foldl after_call state calls.

(** The calls that edit lines: every call but [clearCart]. *)
Definition line_call (c : Call) : bool :=
  match c with
  | ClearCart => false
  | _ => true
  end.

(** [Σ] over a list of doubles, taken in the order of the list from [0],
    every partial sum rounded: [((0 + t1) + t2) + ...]. *)
Fixpoint add_in_order (sum : float) (terms : list float) : float :=
  match terms with
  | [] => sum
  | t :: rest => add_in_order (sum + t)%float rest
  end.

(** The terms [item.price * item.quantity] of the lines, each rounded. *)
Definition line_totals (l : list CartLineItem) : list float :=
  (λ item, to_number (price item) * quantity item)%float <$> l.

(** [Σ(item.price * item.quantity)] and [Σ(item.quantity)] over the lines,
    in their order. *)
Definition sum_price_quantity (l : list CartLineItem) : float :=
  add_in_order 0%float (line_totals l).

Definition sum_quantity (l : list CartLineItem) : float :=
  add_in_order 0%float (quantity <$> l).

(** The same terms added from the last to the first:
    [t1 + (t2 + (... + 0))]. *)
Fixpoint sum_from_the_right (terms : list float) : float :=
  match terms with
  | [] => 0%float
  | t :: rest => (t + sum_from_the_right rest)%float
  end.

(** [a == b] on numbers. *)
Definition loosely_equal (a b : float) : bool := (a =? b)%float.

(** A line whose term [price * quantity] is NaN for want of a number. *)
Definition lacks_number (item : CartLineItem) : Prop :=
  price item = None ∨ is_nan (quantity item) = true.

(** Three products priced 0.1, 0.2 and 0.3, and one without a price. *)
Definition pen : Product :=
  {| p_id := Some "pen"%string; p_name := Some "Pen"%string; p_price := Some 0.1%float;
     p_category := None; p_imageUrl := None; p_quantity := None |}.

Definition pad : Product :=
  {| p_id := Some "pad"%string; p_name := Some "Pad"%string; p_price := Some 0.2%float;
     p_category := None; p_imageUrl := None; p_quantity := None |}.

Definition ink : Product :=
  {| p_id := Some "ink"%string; p_name := Some "Ink"%string; p_price := Some 0.3%float;
     p_category := None; p_imageUrl := None; p_quantity := None |}.

Definition no_price : Product :=
  {| p_id := Some "sku3"%string; p_name := Some "Chair"%string; p_price := None;
     p_category := None; p_imageUrl := None; p_quantity := None |}.

(** A pen goes in and the quantity field of its line is emptied:
    [parseInt('')] is NaN. *)
Definition emptied_field : list Call :=
  [AddToCart pen None; UpdateQuantity (Some "pen"%string) nan].

Definition three_prices : list Call :=
  [AddToCart pen None; AddToCart pad None; AddToCart ink None].

End Doubles.

(** ** The load effect and the render that follows it *)

(** [dispatch] of [useReducer] does not run the reducer: it queues the
    action, and React runs the reducer over the queue when it next renders
    the provider.  What the reducer throws is thrown by that render, after
    the effect has returned; a [try] around the [dispatch] does not cover
    it, and no component of the application catches it.  [Queued] embeds
    [loadCart] with that order of events, and with a [JSON.parse] that may
    yield [null], as it does for the stored text [null]. *)
Module Queued.

(** What [JSON.parse] yields: [null], or a value whose fields can be read.
    A number, a string, a boolean or an array has none of the three fields
    and reads as the payload with all three missing. *)
Inductive Parsed : Type :=
  | parsed_null
  | parsed_value (payload : Payload).

(** A queued action: one the reducer has a case for with a payload it can
    read, or LOAD_CART with the payload [null]. *)
Inductive Queued_action : Type :=
  | action_of (action : Action)
  | LOAD_CART_null.

(** [{ type: LOAD_CART, payload: parsedCart }] *)
Definition load_cart (parsedCart : Parsed) : Queued_action :=
  match parsedCart with
  | parsed_null => LOAD_CART_null
  | parsed_value payload => action_of (LOAD_CART payload)
  end.

(** The reducer on a queued action: [action.payload.items] throws a
    TypeError when the payload is [null]. *)
Definition reduce (state : CartState) (action : Queued_action) : outcome CartState :=
  match action with
  | action_of a => Ok (cartReducer state a)
  | LOAD_CART_null => Throw "TypeError"%string
  end.

(** The render of the provider: the queue reduced in order, from the state
    of the last render. *)
Fixpoint render (state : CartState) (queue : list Queued_action) : outcome CartState :=
  match queue with
  | [] => Ok state
  | action :: rest =>
      match reduce state action with
      | Ok state' => render state' rest
      | Throw e => Throw e
      end
  end.

(** What an effect can change: the queue, [localStorage] and the console. *)
Record Effects : Type := mkEffects {
  queue : list Queued_action;
  localStorage : Storage;
  console : list string
}.

Definition M (A : Type) : Type := Effects → Effects * outcome A.

Definition ret {A} (a : A) : M A := λ w, (w, Ok a).

Definition bind {A B} (m : M A) (k : A → M B) : M B :=
  λ w, match m w with
       | (w', Ok a) => k a w'
       | (w', Throw e) => (w', Throw e)
       end.

Definition throw {A} (e : string) : M A := λ w, (w, Throw e).

(** [try { body } catch (error) { handler }] *)
Definition try_catch {A} (body : M A) (handler : string → M A) : M A :=
  λ w, match body w with
       | (w', Ok a) => (w', Ok a)
       | (w', Throw e) => handler e w'
       end.

#[export] Instance M_ret : MRet M := @ret.
#[export] Instance M_bind : MBind M := λ A B k m, bind m k.

(** [dispatch(action)]: the action joins the queue. *)
Definition dispatch (action : Queued_action) : M unit :=
  λ w, ({| queue := queue w ++ [action]; localStorage := localStorage w;
           console := console w |}, Ok tt).

Definition console_error (msg : string) : M unit :=
  λ w, ({| queue := queue w; localStorage := localStorage w;
           console := console w ++ [msg] |}, Ok tt).

Definition getItem (key : string) : M (option string) :=
  λ w, if read_throws (localStorage w) then (w, Throw "SecurityError"%string)
       else (w, Ok (entries (localStorage w) !! key)).

Section Provider.

(** [JSON.parse] on a stored string: [None] when it throws. *)
Variable JSON_parse : string → option Parsed.

Definition parse (s : string) : M Parsed :=
  match JSON_parse s with
  | Some parsed => ret parsed
  | None => throw "SyntaxError"%string
  end.

Definition loadCart (currentUser : option string) : M unit :=
  try_catch
    (dispatch (action_of (SET_LOADING true)) ;;
     savedCart ← getItem (cart_key currentUser) ;
     match savedCart with
     | Some s =>
         if decide (s = ""%string) then dispatch (action_of CLEAR_CART)
         else (parsedCart ← parse s ; dispatch (load_cart parsedCart))
     | None => dispatch (action_of CLEAR_CART)
     end)
    (λ _, console_error "Error loading cart:"%string ;;
          dispatch (action_of (SET_ERROR "Failed to load cart"%string))).

End Provider.

(** The effect runs after a render, on an empty queue. *)
Definition mounted (storage : Storage) : Effects :=
  {| queue := []; localStorage := storage; console := [] |}.

(** The stored text for the user's key parses to [null]. *)
Definition stored_null (JSON_parse : string → option Parsed)
    (currentUser : option string) (storage : Storage) : Prop :=
  read_throws storage = false ∧
  ∃ s, entries storage !! cart_key currentUser = Some s ∧ s ≠ ""%string ∧
       JSON_parse s = Some parsed_null.

(** The read threw, or the stored text did not parse. *)
Definition load_fails (JSON_parse : string → option Parsed)
    (currentUser : option string) (storage : Storage) : Prop :=
  read_throws storage = true ∨
  ∃ s, entries storage !! cart_key currentUser = Some s ∧ s ≠ ""%string ∧
       JSON_parse s = None.

(** A [JSON.parse] that never yields [null], from one that yields
    payloads. *)
Definition never_null (JSON_parse : string → option Payload) (s : string) : option Parsed :=
  parsed_value <$> JSON_parse s.

(** A stand-in for [JSON.parse] that knows the text [null]. *)
Definition parse_null (s : string) : option Parsed :=
  if decide (s = "null"%string) then Some parsed_null else None.

(** A store that holds the text [null] for the guest. *)
Definition null_store : Storage :=
  {| entries := {[ cart_key None := "null"%string ]}; read_throws := false;
     write_throws := false |}.

End Queued.

(** ** Arithmetic of JavaScript sums *)

Lemma js_add_0_l a : js_add (Num 0) a = a.
Proof. by destruct a. Qed.

Lemma js_add_assoc a b c : js_add (js_add a b) c = js_add a (js_add b c).
Proof. destruct a, b, c; simpl; f_equal; lia. Qed.

Lemma js_add_0_r a : js_add a (Num 0) = a.
Proof. destruct a; simpl; f_equal; lia. Qed.

Lemma reduce_total_from a l :
  foldl (λ sum item, js_add sum (js_mul (to_num (price item)) (Num (quantity item)))) a l
  = js_add a (sum_price_quantity l).
Proof.
  revert a. induction l as [|x l IH]; intros a; simpl.
  - by rewrite js_add_0_r.
  - by rewrite IH, js_add_assoc.
Qed.

Lemma reduce_total_sum l : reduce_total l = sum_price_quantity l.
Proof. unfold reduce_total. by rewrite reduce_total_from, js_add_0_l. Qed.

Lemma reduce_count_from a l :
  foldl (λ sum item, sum + quantity item) a l = a + sum_quantity l.
Proof.
  revert a. induction l as [|x l IH]; intros a; simpl; [lia|].
  rewrite IH. lia.
Qed.

Lemma reduce_count_sum l : reduce_count l = sum_quantity l.
Proof. unfold reduce_count. by rewrite reduce_count_from. Qed.

(** ** The reducer, case by case *)

Lemma findIndex_cons {A} (P : A → Prop) `{∀ x, Decision (P x)} x l :
  findIndex P (x :: l) =
    if decide (P x) then 0
    else if decide (0 ≤ findIndex P l) then 1 + findIndex P l else -1.
Proof.
  unfold findIndex. simpl. destruct (decide (P x)) as [|_]; [done|].
  destruct (list_find P l) as [[i y]|]; cbn -[Z.of_nat Z.add].
  - rewrite decide_True by lia. lia.
  - by rewrite decide_False by lia.
Qed.

Lemma findIndex_range {A} (P : A → Prop) `{∀ x, Decision (P x)} l :
  -1 ≤ findIndex P l.
Proof. unfold findIndex. destruct (list_find P l) as [[i y]|]; lia. Qed.

Lemma imap_same {A} (l : list A) : imap (λ _ y, y) l = l.
Proof. induction l as [|x l IH]; [done|]. rewrite imap_cons. f_equal. exact IH. Qed.

Lemma add_case_items product q l :
  (let existingItemIndex := findIndex (λ item, id item = p_id product) l in
   if decide (0 ≤ existingItemIndex) then
     imap (λ index item,
             if decide (Z.of_nat index = existingItemIndex)
             then with_quantity item (quantity item + q)
             else item) l
   else l ++ [line_of_product product q])
  = add_line product q l.
Proof.
  cbv zeta. induction l as [|x l IH]; [done|].
  rewrite findIndex_cons. simpl add_line.
  pose proof (findIndex_range (λ item, id item = p_id product) l) as Hr.
  destruct (decide (id x = p_id product)) as [Hx|Hx].
  - rewrite decide_True by lia. rewrite imap_cons. simpl.
    f_equal. rewrite <- (imap_same l) at 2. apply imap_ext.
    intros i y _. unfold compose.
    destruct (decide (Z.of_nat (S i) = 0)); [lia|done].
  - destruct (decide (0 ≤ findIndex (λ item, id item = p_id product) l)) as [Hf|Hf].
    + rewrite decide_True by lia.
      rewrite imap_cons. rewrite decide_False by lia. f_equal.
      rewrite <- IH. apply imap_ext. intros i y _. unfold compose.
      destruct (decide (Z.of_nat (S i) = 1 + _)), (decide (Z.of_nat i = _));
        try done; lia.
    + rewrite decide_False by lia.
      simpl. by rewrite IH.
Qed.

Lemma add_items state product quantity :
  items (cartReducer state (ADD_TO_CART product quantity))
  = add_line product (default 1 quantity) (items state).
Proof. simpl. apply add_case_items. Qed.

Lemma remove_items state pid :
  items (cartReducer state (REMOVE_FROM_CART pid))
  = filter (λ item, id item ≠ pid) (items state).
Proof. done. Qed.

Lemma update_items state pid q :
  0 < q →
  items (cartReducer state (UPDATE_QUANTITY pid q))
  = (λ item, if decide (id item = pid) then with_quantity item q else item) <$> items state.
Proof. intros Hq. simpl. by rewrite decide_False by lia. Qed.

Lemma update_nonpositive state pid q :
  q ≤ 0 →
  cartReducer state (UPDATE_QUANTITY pid q) = cartReducer state (REMOVE_FROM_CART pid).
Proof. intros Hq. simpl. by rewrite decide_True by lia. Qed.

(** Every case of the reducer that a call reaches recomputes both derived
    fields from the items it stores. *)
Lemma after_call_recomputes state c :
  total (after_call state c) = reduce_total (items (after_call state c)) ∧
  itemCount (after_call state c) = reduce_count (items (after_call state c)).
Proof.
  destruct c as [product quantity|pid|pid q|]; unfold after_call; simpl; try done.
  destruct (decide (q ≤ 0)); done.
Qed.

Lemma after_call_consistent state c : consistent (after_call state c).
Proof.
  destruct (after_call_recomputes state c) as [Ht Hc]. split.
  - by rewrite Ht, reduce_total_sum.
  - by rewrite Hc, reduce_count_sum.
Qed.

Lemma after_call_settled state c :
  loading (after_call state c) = false ∧ error (after_call state c) = None.
Proof.
  destruct c as [product quantity|pid|pid q|]; unfold after_call; simpl; try done.
  destruct (decide (q ≤ 0)); done.
Qed.

Lemma initialState_consistent : consistent initialState.
Proof. done. Qed.

Lemma after_calls_snoc state calls c :
  after_calls state (calls ++ [c]) = after_call (after_calls state calls) c.
Proof. unfold after_calls. apply foldl_snoc. Qed.

Lemma after_calls_consistent state calls :
  consistent state → consistent (after_calls state calls).
Proof.
  intros Hs. destruct calls as [|c calls _] using rev_ind; [done|].
  rewrite after_calls_snoc. apply after_call_consistent.
Qed.

(** ** Ids of the lines *)

Lemma id_with_quantity item q : id (with_quantity item q) = id item.
Proof. done. Qed.

Lemma ids_add_line product q l :
  id <$> add_line product q l =
    if decide (p_id product ∈ id <$> l) then id <$> l
    else (id <$> l) ++ [p_id product].
Proof.
  induction l as [|x l IH]; [done|]. cbn [add_line].
  destruct (decide (id x = p_id product)) as [Hx|Hx].
  - rewrite decide_True; [done|].
    rewrite fmap_cons, Hx. apply elem_of_cons. by left.
  - rewrite !fmap_cons, IH.
    destruct (decide (p_id product ∈ id <$> l)) as [Hin|Hin].
    + rewrite decide_True; [done|]. apply elem_of_cons. by right.
    + rewrite decide_False; [done|].
      intros [Heq|Hin']%elem_of_cons; [by apply Hx|by apply Hin].
Qed.

Lemma unique_ids_add_line product q l :
  unique_ids l → unique_ids (add_line product q l).
Proof.
  unfold unique_ids. intros Hl. rewrite ids_add_line.
  destruct (decide (p_id product ∈ id <$> l)) as [Hin|Hin]; [done|].
  apply NoDup_app. split_and!; [done| |apply NoDup_singleton].
  intros y Hy Hy'. apply list_elem_of_singleton in Hy'. by subst.
Qed.

Lemma unique_ids_filter (P : CartLineItem → Prop) `{∀ x, Decision (P x)} l :
  unique_ids l → unique_ids (filter P l).
Proof.
  unfold unique_ids. induction l as [|x l IH]; [done|].
  rewrite fmap_cons, NoDup_cons. intros [Hx Hl].
  rewrite filter_cons. destruct (decide (P x)); [|by apply IH].
  rewrite fmap_cons, NoDup_cons. split; [|by apply IH].
  intros [y [Hy Hin]]%list_elem_of_fmap. apply Hx.
  apply list_elem_of_fmap. exists y. split; [done|].
  by apply list_elem_of_filter in Hin as [_ ?].
Qed.

Lemma ids_set_quantity pid q (l : list CartLineItem) :
  id <$> ((λ item, if decide (id item = pid) then with_quantity item q else item) <$> l)
  = id <$> l.
Proof.
  rewrite <- list_fmap_compose. apply list_fmap_ext.
  intros i x _. simpl. by destruct (decide (id x = pid)).
Qed.

Lemma after_call_unique_ids state c :
  unique_ids (items state) → unique_ids (items (after_call state c)).
Proof.
  intros Hs. destruct c as [product quantity|pid|pid q|]; unfold after_call.
  - simpl call_action. rewrite add_items. by apply unique_ids_add_line.
  - simpl. by apply unique_ids_filter.
  - simpl. destruct (decide (q ≤ 0)); simpl.
    + by apply unique_ids_filter.
    + unfold unique_ids. by rewrite ids_set_quantity.
  - simpl. by apply NoDup_nil.
Qed.

Lemma after_calls_unique_ids state calls :
  unique_ids (items state) → unique_ids (items (after_calls state calls)).
Proof.
  revert state. induction calls as [|c calls IH]; intros state Hs; [done|].
  simpl. apply IH. by apply after_call_unique_ids.
Qed.

(** ** The lines of one id *)

Lemma lines_of_absent pid l : pid ∉ id <$> l → lines_of pid l = [].
Proof.
  unfold lines_of. induction l as [|x l IH]; [done|].
  rewrite fmap_cons, not_elem_of_cons. intros [Hx Hl].
  rewrite filter_cons_False by done. by apply IH.
Qed.

Lemma lines_of_unique pid l :
  unique_ids l → lines_of pid l = [] ∨ ∃ line, lines_of pid l = [line].
Proof.
  unfold unique_ids, lines_of. induction l as [|x l IH]; [by left|].
  rewrite fmap_cons, NoDup_cons. intros [Hx Hl].
  rewrite filter_cons. destruct (decide (id x = pid)) as [Heq|Hne].
  - right. exists x. f_equal. apply lines_of_absent. by rewrite <- Heq.
  - by apply IH.
Qed.

Lemma lines_of_add_line product q l :
  lines_of (p_id product) (add_line product q l) =
    match lines_of (p_id product) l with
    | [] => [line_of_product product q]
    | line :: rest => with_quantity line (quantity line + q) :: rest
    end.
Proof.
  unfold lines_of. induction l as [|x l IH]; simpl.
  - by rewrite filter_cons_True, filter_nil.
  - destruct (decide (id x = p_id product)) as [Hx|Hx].
    + by rewrite !filter_cons_True.
    + by rewrite !filter_cons_False.
Qed.

(** Lines of another id are untouched by an addition. *)
Lemma lines_of_add_line_other product q pid l :
  pid ≠ p_id product → lines_of pid (add_line product q l) = lines_of pid l.
Proof.
  intros Hne. unfold lines_of. induction l as [|x l IH]; simpl.
  - by rewrite filter_cons_False.
  - destruct (decide (id x = p_id product)) as [Hx|Hx].
    + rewrite !filter_cons_False; [done| |]; simpl; congruence.
    + rewrite !filter_cons. by rewrite IH.
Qed.

Lemma sum_quantity_app l1 l2 :
  sum_quantity (l1 ++ l2) = sum_quantity l1 + sum_quantity l2.
Proof. induction l1 as [|x l1 IH]; simpl; lia. Qed.

Lemma sum_quantity_add_line product q l :
  sum_quantity (add_line product q l) = sum_quantity l + q.
Proof.
  induction l as [|x l IH]; simpl; [lia|].
  destruct (decide (id x = p_id product)); simpl; lia.
Qed.

(** The two shapes an addition can take. *)
Lemma add_line_absent product q l :
  p_id product ∉ id <$> l → add_line product q l = l ++ [line_of_product product q].
Proof.
  induction l as [|x l IH]; [done|].
  rewrite fmap_cons, not_elem_of_cons. intros [Hx Hl]. simpl.
  rewrite decide_False by done. by rewrite IH.
Qed.

Lemma add_line_present product q l :
  p_id product ∈ id <$> l →
  ∃ before line rest,
    l = before ++ (line :: rest) ∧ id line = p_id product ∧
    (p_id product ∉ id <$> before) ∧
    add_line product q l = before ++ with_quantity line (quantity line + q) :: rest.
Proof.
  induction l as [|x l IH]; [by intros ?%elem_of_nil|].
  rewrite fmap_cons. intros Hin. simpl.
  destruct (decide (id x = p_id product)) as [Hx|Hx].
  - exists [], x, l. split_and!; try done. apply not_elem_of_nil.
  - apply elem_of_cons in Hin as [Heq|Hin]; [done|].
    destruct (IH Hin) as (before & line & rest & -> & Hid & Hb & Hadd).
    exists (x :: before), line, rest. split_and!; try done.
    + rewrite fmap_cons, not_elem_of_cons. split; [congruence|done].
    + simpl. by rewrite Hadd.
Qed.

(** ** The scenario of the specification *)

(** Add one, set to four, remove. *)
Example scenario_add :
  one_lamp = {| items := [line_of_product sku1 1]; total := Num 1000; itemCount := 1;
                loading := false; error := None |}.
Proof. reflexivity. Qed.

Example scenario_update :
  let s := after_call one_lamp (UpdateQuantity (Some "sku1"%string) 4) in
  total s = Num 4000 ∧ itemCount s = 4.
Proof. split; reflexivity. Qed.

Example scenario_remove :
  after_calls one_lamp [UpdateQuantity (Some "sku1"%string) 4;
                        RemoveFromCart (Some "sku1"%string)] = initialState.
Proof. reflexivity. Qed.

(** The spread overwrites a [quantity] carried by the descriptor, and the
    default quantity is one. *)
Example descriptor_quantity_overwritten :
  items (after_call initialState (AddToCart sku2 None)) = [line_of_product sku2 1].
Proof. reflexivity. Qed.

(** ** Calls of the interface on the cart *)

(** In the integer model the derived fields are the sums after every
    sequence of calls: the arithmetic is exact and associative there. *)
Lemma integer_fields_consistent (calls : list Call) (k : nat) :
  consistent (after_calls initialState (take k calls)).
Proof. apply after_calls_consistent, initialState_consistent. Qed.

Section DoublesFacts.

Import PrimFloat FloatAxioms SpecFloat FloatOps Doubles.

#[local] Set Warnings "-inexact-float".

(** NaN absorbs sums and products, and it is the one double that [==] holds
    different from itself. *)
Lemma nan_add_l x : (nan + x)%float = nan.
Proof. apply Prim2SF_inj. rewrite add_spec. reflexivity. Qed.

Lemma nan_add_r x : (x + nan)%float = nan.
Proof.
  apply Prim2SF_inj. rewrite add_spec. change (Prim2SF nan) with S754_nan.
  by destruct (Prim2SF x) as [| | |[] ? ?].
Qed.

Lemma nan_mul_l x : (nan * x)%float = nan.
Proof. apply Prim2SF_inj. rewrite mul_spec. reflexivity. Qed.

Lemma nan_mul_r x : (x * nan)%float = nan.
Proof.
  apply Prim2SF_inj. rewrite mul_spec. change (Prim2SF nan) with S754_nan.
  by destruct (Prim2SF x) as [| | |[] ? ?].
Qed.

Lemma is_nan_eq x : is_nan x = true ↔ x = nan.
Proof.
  split; [|by intros ->].
  unfold is_nan. rewrite eqb_spec. intros H. apply Prim2SF_inj.
  change (Prim2SF nan) with S754_nan.
  destruct (Prim2SF x) as [[]|[]| |[] m e]; try done.
  all: exfalso; unfold SFeqb, SFcompare in H; rewrite Z.compare_refl in H.
  - by rewrite Pos.compare_cont_refl in H.
  - by rewrite Pos.compare_refl in H.
Qed.

Lemma loosely_equal_self x : loosely_equal x x = negb (is_nan x).
Proof. unfold loosely_equal, is_nan. by rewrite negb_involutive. Qed.

Lemma nan_never_equal x y : is_nan x = true → loosely_equal x y = false.
Proof.
  intros ->%is_nan_eq. unfold loosely_equal. rewrite eqb_spec.
  change (Prim2SF nan) with S754_nan. reflexivity.
Qed.

(** The reducer's [reduce] adds in the order of the lines. *)
Lemma foldl_add_in_order {A} (term : A → float) (l : list A) (sum : float) :
  foldl (λ sum x, (sum + term x)%float) sum l = add_in_order sum (term <$> l).
Proof. revert sum. induction l as [|x l IH]; intros sum; [done|]. simpl. apply IH. Qed.

Lemma reduce_total_in_order l : reduce_total l = sum_price_quantity l.
Proof.
  unfold reduce_total, sum_price_quantity, line_totals.
  apply (foldl_add_in_order (λ item, to_number (price item) * quantity item)%float).
Qed.

Lemma reduce_count_in_order l : reduce_count l = sum_quantity l.
Proof. unfold reduce_count, sum_quantity. apply (foldl_add_in_order quantity). Qed.

Lemma add_in_order_nan terms : add_in_order nan terms = nan.
Proof. induction terms as [|t terms IH]; [done|]. simpl. by rewrite nan_add_l. Qed.

Lemma add_in_order_has_nan terms sum :
  Exists (λ t, is_nan t = true) terms → is_nan (add_in_order sum terms) = true.
Proof.
  intros Hex. revert sum. induction Hex as [t terms Ht|t terms _ IH]; intros sum.
  - apply is_nan_eq in Ht as ->. simpl. rewrite nan_add_r, add_in_order_nan. done.
  - simpl. apply IH.
Qed.

Lemma lacks_number_term item :
  lacks_number item → is_nan (to_number (price item) * quantity item)%float = true.
Proof.
  intros [Hp|Hq].
  - rewrite Hp. simpl. by rewrite nan_mul_l.
  - apply is_nan_eq in Hq as ->. by rewrite nan_mul_r.
Qed.

(** Every case a call reaches recomputes both derived fields from the lines
    it stores. *)
Lemma double_after_call_recomputes state c :
  total (after_call state c) = reduce_total (items (after_call state c)) ∧
  itemCount (after_call state c) = reduce_count (items (after_call state c)).
Proof.
  destruct c as [product q|productId|productId q|]; try done.
  unfold after_call. simpl. by destruct (q <=? 0)%float.
Qed.

Lemma double_after_calls_snoc state calls c :
  after_calls state (calls ++ [c]) = after_call (after_calls state calls) c.
Proof. unfold after_calls. by rewrite foldl_app. Qed.

Lemma double_after_calls_recompute calls :
  total (after_calls initialState calls)
    = reduce_total (items (after_calls initialState calls)) ∧
  itemCount (after_calls initialState calls)
    = reduce_count (items (after_calls initialState calls)).
Proof.
  destruct calls as [|c calls _] using rev_ind; [done|].
  rewrite double_after_calls_snoc. apply double_after_call_recomputes.
Qed.

(** C1, as the claim states it, fails on JavaScript's numbers.  A product
    without a price goes in: the total is NaN, which [==] holds equal to
    nothing.  The quantity field of a line is emptied and [parseInt] hands
    NaN to updateQuantity: the line keeps it (NaN <= 0 is false), and total
    and itemCount are NaN.  Three products priced 0.1, 0.2 and 0.3 go in:
    the total is 0.6000000000000001, not the 0.6 that the same three terms
    give when they are added from the right. *)
Lemma derived_fields_not_equal :
  is_nan (total (after_calls initialState [AddToCart no_price None])) = true ∧
  loosely_equal (total (after_calls initialState [AddToCart no_price None]))
    (sum_price_quantity (items (after_calls initialState [AddToCart no_price None])))
    = false ∧
  quantity <$> items (after_calls initialState emptied_field) = [nan] ∧
  loosely_equal (total (after_calls initialState emptied_field))
    (sum_price_quantity (items (after_calls initialState emptied_field))) = false ∧
  loosely_equal (itemCount (after_calls initialState emptied_field))
    (sum_quantity (items (after_calls initialState emptied_field))) = false ∧
  total (after_calls initialState three_prices) = 0.6000000000000001%float ∧
  sum_from_the_right (line_totals (items (after_calls initialState three_prices)))
    = 0.6%float ∧
  loosely_equal (total (after_calls initialState three_prices))
    (sum_from_the_right (line_totals (items (after_calls initialState three_prices))))
    = false.
Proof. split_and!; reflexivity. Qed.

(** C1, amended. Starting from the empty cart, after each call of any
    sequence of addToCart, removeFromCart and updateQuantity calls, [total]
    is the double that adding the terms price * quantity of the resulting
    lines to 0 gives, in the order of the lines and with every product and
    every partial sum rounded, and [itemCount] is the double that adding
    their quantities to 0 in the same order gives.  [total == Σ] for that
    sum holds exactly when total is not NaN, and likewise for itemCount;
    total is NaN as soon as one resulting line has no price or a NaN
    quantity, and itemCount as soon as one has a NaN quantity.
    [take k calls] is the sequence up to its k-th call. *)
Theorem derived_fields_consistent (calls : list Call) (k : nat) :
  forallb line_call calls = true →
  let state := after_calls initialState (take k calls) in
  total state = sum_price_quantity (items state) ∧
  itemCount state = sum_quantity (items state) ∧
  loosely_equal (total state) (sum_price_quantity (items state))
    = negb (is_nan (total state)) ∧
  loosely_equal (itemCount state) (sum_quantity (items state))
    = negb (is_nan (itemCount state)) ∧
  (Exists lacks_number (items state) → is_nan (total state) = true) ∧
  (Exists (λ item, is_nan (quantity item) = true) (items state) →
     is_nan (itemCount state) = true).
Proof.
  intros _ state.
  destruct (double_after_calls_recompute (take k calls)) as [Ht Hc].
  fold state in Ht, Hc. rewrite reduce_total_in_order in Ht.
  rewrite reduce_count_in_order in Hc. split_and!.
  - done.
  - done.
  - rewrite <- Ht. apply loosely_equal_self.
  - rewrite <- Hc. apply loosely_equal_self.
  - intros Hex. rewrite Ht. apply add_in_order_has_nan.
    unfold line_totals. apply Exists_fmap.
    eapply Exists_impl; [done|]. apply lacks_number_term.
  - intros Hex. rewrite Hc. apply add_in_order_has_nan. by apply Exists_fmap.
Qed.

Lemma derived_fields_consistent_witness :
  let state := after_calls initialState (take 5 (three_prices ++ emptied_field)) in
  total state = sum_price_quantity (items state) ∧
  itemCount state = sum_quantity (items state) ∧
  loosely_equal (total state) (sum_price_quantity (items state))
    = negb (is_nan (total state)) ∧
  loosely_equal (itemCount state) (sum_quantity (items state))
    = negb (is_nan (itemCount state)) ∧
  (Exists lacks_number (items state) → is_nan (total state) = true) ∧
  (Exists (λ item, is_nan (quantity item) = true) (items state) →
     is_nan (itemCount state) = true).
Proof.
  apply (derived_fields_consistent (three_prices ++ emptied_field) 5). reflexivity.
Defined.

(** Whole prices and quantities are added without rounding: the scenario of
    the specification gives the same numbers on doubles. *)
Example scenario_on_doubles :
  let lamp := {| p_id := Some "sku1"%string; p_name := Some "Lamp"%string;
                 p_price := Some 1000%float; p_category := None; p_imageUrl := None;
                 p_quantity := None |} in
  let state := after_calls initialState
                 [AddToCart lamp None; UpdateQuantity (Some "sku1"%string) 4%float] in
  total state = 4000%float ∧ itemCount state = 4%float.
Proof. split; reflexivity. Qed.

End DoublesFacts.

(** C2. In a cart whose lines have distinct ids, addToCart(P, m) followed by
    addToCart(P, n), with m and n positive, leaves exactly one line with P's
    id, and its quantity is the quantity the cart held of P before (zero when
    it held none) plus m + n. *)
Theorem add_twice_accumulates (state : CartState) (P : Product) (m n : Z) :
  unique_ids (items state) → 0 < m → 0 < n →
  ∃ line,
    lines_of (p_id P)
      (items (after_call (after_call state (AddToCart P (Some m))) (AddToCart P (Some n))))
      = [line] ∧
    quantity line = quantity_of (p_id P) (items state) + (m + n).
Proof.
  intros Hu _ _. unfold after_call. simpl call_action.
  rewrite !add_items, !lines_of_add_line. unfold quantity_of.
  destruct (lines_of_unique (p_id P) (items state) Hu) as [->|[line ->]].
  - eexists. split; [done|]. simpl. lia.
  - eexists. split; [done|]. simpl. lia.
Qed.

Lemma add_twice_accumulates_witness :
  ∃ line,
    lines_of (p_id sku1)
      (items (after_call (after_call one_lamp (AddToCart sku1 (Some 2)))
                         (AddToCart sku1 (Some 3))))
      = [line] ∧
    quantity line = quantity_of (p_id sku1) (items one_lamp) + (2 + 3).
Proof.
  apply (add_twice_accumulates one_lamp sku1 2 3); [|lia|lia].
  unfold unique_ids. vm_compute. apply NoDup_singleton.
Defined.

(** Distinct ids are needed: LOAD_CART adopts the stored lines as they are,
    and on a cart with two lines of one id an addition raises the first and
    leaves both. *)
Example add_on_duplicated_lines :
  let state :=
    cartReducer initialState
      (LOAD_CART {| pl_items := Some [line_of_product sku1 1; line_of_product sku1 4];
                    pl_total := Some 5000; pl_itemCount := Some 5 |}) in
  lines_of (p_id sku1) (items (after_call state (AddToCart sku1 (Some 2))))
  = [line_of_product sku1 3; line_of_product sku1 4].
Proof. reflexivity. Qed.

(** C3. updateQuantity(productId, q) with q <= 0 gives the state that
    removeFromCart(productId) gives; every line it leaves is a line of the
    prior state with another id, so no line of quantity q is stored. *)
Theorem update_nonpositive_is_remove (state : CartState) (productId : js_id) (q : Z) :
  q ≤ 0 →
  after_call state (UpdateQuantity productId q) = after_call state (RemoveFromCart productId) ∧
  Forall (λ item, item ∈ items state ∧ id item ≠ productId)
         (items (after_call state (UpdateQuantity productId q))).
Proof.
  intros Hq. unfold after_call. simpl call_action.
  rewrite (update_nonpositive _ _ _ Hq). split; [done|].
  rewrite remove_items. apply Forall_forall. intros x Hx.
  apply list_elem_of_filter in Hx as [? ?]. done.
Qed.

Lemma update_nonpositive_is_remove_witness :
  after_call one_lamp (UpdateQuantity (Some "sku1"%string) (-5))
    = after_call one_lamp (RemoveFromCart (Some "sku1"%string)) ∧
  Forall (λ item, item ∈ items one_lamp ∧ id item ≠ Some "sku1"%string)
         (items (after_call one_lamp (UpdateQuantity (Some "sku1"%string) (-5)))).
Proof.
  apply (update_nonpositive_is_remove one_lamp (Some "sku1"%string) (-5)). lia.
Defined.

(** C4, as the claim states it, fails: clearCart ends the loading phase of
    a cart that is loading, and clears the message of a cart whose load
    failed. *)
Lemma clear_resets_flags :
  loading (after_call while_loading ClearCart) ≠ loading while_loading ∧
  error (after_call load_failed ClearCart) ≠ error load_failed.
Proof. split; discriminate. Qed.

(** C4, amended. For every cart state clearCart yields items = [], total = 0
    and itemCount = 0, and it also sets loading to false and error to null:
    the result is the initial state. *)
Theorem clear_resets_to_initial (state : CartState) :
  items (after_call state ClearCart) = [] ∧
  total (after_call state ClearCart) = Num 0 ∧
  itemCount (after_call state ClearCart) = 0 ∧
  loading (after_call state ClearCart) = false ∧
  error (after_call state ClearCart) = None.
Proof. done. Qed.

(** C6. Starting from the empty cart, no sequence of addToCart (of products
    that have an id), removeFromCart, updateQuantity and clearCart calls
    leaves two lines with the same id. *)
Theorem ids_stay_unique (calls : list Call) :
  forallb has_id calls = true →
  NoDup (id <$> items (after_calls initialState calls)).
Proof.
  intros _. apply after_calls_unique_ids. unfold unique_ids. simpl. by apply NoDup_nil.
Qed.

Lemma ids_stay_unique_witness :
  NoDup (id <$> items (after_calls initialState
                         [AddToCart sku1 (Some 2); AddToCart sku2 None;
                          AddToCart sku1 (Some 3); UpdateQuantity (Some "sku2"%string) 4;
                          ClearCart; AddToCart sku2 (Some 1);
                          RemoveFromCart (Some "sku1"%string)])).
Proof. apply ids_stay_unique. reflexivity. Defined.

(** C9, as the claim states it, fails: a descriptor without a price is
    taken into the empty cart, and the total becomes NaN. *)
Lemma malformed_product_mutates :
  p_price no_price = None ∧
  after_call initialState (AddToCart no_price (Some 1)) ≠ initialState ∧
  items (after_call initialState (AddToCart no_price (Some 1))) = [line_of_product no_price 1] ∧
  total (after_call initialState (AddToCart no_price (Some 1))) = NaN.
Proof. split_and!; [done|discriminate|done|done]. Qed.

(** C9, amended. addToCart with a descriptor that lacks an id or a price is
    not rejected; it is treated like any other. When no line has the
    descriptor's id (a missing id equals a missing id) the descriptor and the
    quantity are appended as a new line after the existing lines, which are
    unchanged; otherwise the first line with that id has its quantity raised
    by the quantity and every other line is unchanged. itemCount is
    recomputed: it becomes the sum of the prior lines' quantities plus the
    quantity, so it grows by the quantity exactly when the prior itemCount
    was the sum of the prior lines' quantities (a count adopted from the
    store by LOAD_CART need not be). total is recomputed from the new
    lines. *)
Theorem malformed_product_is_accepted (state : CartState) (product : Product)
    (qty : option Z) :
  p_id product = None ∨ p_price product = None →
  let state' := after_call state (AddToCart product qty) in
  let q := default 1 qty in
  (p_id product ∉ id <$> items state →
     items state' = items state ++ [line_of_product product q]) ∧
  (p_id product ∈ id <$> items state →
     ∃ before line rest,
       items state = before ++ (line :: rest) ∧ id line = p_id product ∧
       (p_id product ∉ id <$> before) ∧
       items state' = before ++ with_quantity line (quantity line + q) :: rest) ∧
  itemCount state' = sum_quantity (items state) + q ∧
  (itemCount state' = itemCount state + q ↔
     itemCount state = sum_quantity (items state)) ∧
  total state' = sum_price_quantity (items state').
Proof.
  intros _ state' q.
  assert (items state' = add_line product q (items state)) as Hitems
    by apply add_items.
  destruct (after_call_consistent state (AddToCart product qty)) as [Ht Hc].
  fold state' in Ht, Hc. split_and!.
  - intros Habs. rewrite Hitems. by apply add_line_absent.
  - intros Hin. rewrite Hitems. by apply add_line_present.
  - by rewrite Hc, Hitems, sum_quantity_add_line.
  - rewrite Hc, Hitems, sum_quantity_add_line. lia.
  - done.
Qed.

(** On a cart whose count was adopted from the store, the count does not
    grow by the quantity: it is recomputed from the lines. *)
Example malformed_product_on_stale_count :
  itemCount stale_count = 7 ∧
  itemCount (after_call stale_count (AddToCart no_id (Some 2))) = 3.
Proof. split; reflexivity. Qed.

Lemma malformed_product_is_accepted_witness :
  let state' := after_call one_lamp (AddToCart no_id (Some 2)) in
  (p_id no_id ∉ id <$> items one_lamp →
     items state' = items one_lamp ++ [line_of_product no_id 2]) ∧
  (p_id no_id ∈ id <$> items one_lamp →
     ∃ before line rest,
       items one_lamp = before ++ (line :: rest) ∧ id line = p_id no_id ∧
       (p_id no_id ∉ id <$> before) ∧
       items state' = before ++ with_quantity line (quantity line + 2) :: rest) ∧
  itemCount state' = sum_quantity (items one_lamp) + 2 ∧
  (itemCount state' = itemCount one_lamp + 2 ↔
     itemCount one_lamp = sum_quantity (items one_lamp)) ∧
  total state' = sum_price_quantity (items state').
Proof.
  apply (malformed_product_is_accepted one_lamp no_id (Some 2)). left. reflexivity.
Defined.

(** ** The provider's effects *)

Lemma call_op_dispatches c w :
  call_op c w =
    ({| cart := after_call (cart w) c; localStorage := localStorage w;
        console := console w |}, Ok tt).
Proof. by destruct c. Qed.

Section ProviderFacts.

Variable JSON_parse : string → option Payload.
Variable JSON_stringify : SavedCart → string.

Lemma saveCart_settled u w :
  loading (cart w) = false →
  saveCart JSON_stringify u w =
    if write_throws (localStorage w) then
      ({| cart := cart w; localStorage := localStorage w;
          console := console w ++ ["Error saving cart:"%string] |}, Ok tt)
    else
      ({| cart := cart w;
          localStorage :=
            {| entries :=
                 <[cart_key u :=
                     JSON_stringify {| sv_items := items (cart w);
                                       sv_total := total (cart w);
                                       sv_itemCount := itemCount (cart w) |}]>
                   (entries (localStorage w));
               read_throws := read_throws (localStorage w);
               write_throws := write_throws (localStorage w) |};
          console := console w |}, Ok tt).
Proof.
  intros Hl. unfold saveCart. run_effect. rewrite Hl. simpl.
  by destruct (write_throws (localStorage w)).
Qed.

Lemma saveCart_while_loading u w :
  loading (cart w) = true → saveCart JSON_stringify u w = (w, Ok tt).
Proof. intros Hl. unfold saveCart. run_effect. by rewrite Hl. Qed.

Lemma perform_write_fails u c w :
  write_throws (localStorage w) = true →
  perform JSON_stringify u c w =
    ({| cart := after_call (cart w) c; localStorage := localStorage w;
        console := console w ++ ["Error saving cart:"%string] |}, Ok tt).
Proof.
  intros Hw. unfold perform, mbind, M_bind, bind. rewrite call_op_dispatches.
  rewrite saveCart_settled by apply after_call_settled. simpl. by rewrite Hw.
Qed.

(** A call never throws, whatever the store does, and the cart it leaves is
    the reducer's. *)
Lemma perform_returns u c w :
  (perform JSON_stringify u c w).2 = Ok tt ∧
  cart (perform JSON_stringify u c w).1 = after_call (cart w) c.
Proof.
  unfold perform, mbind, M_bind, bind. rewrite call_op_dispatches.
  rewrite saveCart_settled by apply after_call_settled. simpl.
  by destruct (write_throws (localStorage w)).
Qed.

Lemma loadCart_read_fails u w :
  read_throws (localStorage w) = true →
  loadCart JSON_parse u w =
    ({| cart := flagged (cart w); localStorage := localStorage w;
        console := console w ++ ["Error loading cart:"%string] |}, Ok tt).
Proof. intros Hr. unfold loadCart. run_effect. by rewrite Hr. Qed.

Lemma loadCart_unparseable u w s :
  read_throws (localStorage w) = false →
  entries (localStorage w) !! cart_key u = Some s →
  s ≠ ""%string →
  JSON_parse s = None →
  loadCart JSON_parse u w =
    ({| cart := flagged (cart w); localStorage := localStorage w;
        console := console w ++ ["Error loading cart:"%string] |}, Ok tt).
Proof.
  intros Hr Hs Hne Hp. unfold loadCart. run_effect. rewrite Hr, Hs.
  rewrite decide_False by done. unfold parse. rewrite Hp. by run_effect.
Qed.

Lemma loadCart_parsed u w s payload :
  read_throws (localStorage w) = false →
  entries (localStorage w) !! cart_key u = Some s →
  s ≠ ""%string →
  JSON_parse s = Some payload →
  loadCart JSON_parse u w =
    ({| cart := cartReducer (cart w) (LOAD_CART payload);
        localStorage := localStorage w; console := console w |}, Ok tt).
Proof.
  intros Hr Hs Hne Hp. unfold loadCart. run_effect. rewrite Hr, Hs.
  rewrite decide_False by done. unfold parse. rewrite Hp. by run_effect.
Qed.

Lemma loadCart_absent u w :
  read_throws (localStorage w) = false →
  entries (localStorage w) !! cart_key u = None →
  loadCart JSON_parse u w =
    ({| cart := initialState; localStorage := localStorage w;
        console := console w |}, Ok tt).
Proof. intros Hr Hs. unfold loadCart. run_effect. by rewrite Hr, Hs. Qed.

(** An empty stored string is falsy: the load takes it for no saved cart,
    without trying to parse it. *)
Lemma loadCart_empty_string u w :
  read_throws (localStorage w) = false →
  entries (localStorage w) !! cart_key u = Some ""%string →
  loadCart JSON_parse u w =
    ({| cart := initialState; localStorage := localStorage w;
        console := console w |}, Ok tt).
Proof. intros Hr Hs. unfold loadCart. run_effect. by rewrite Hr, Hs. Qed.

(** The load never throws. *)
Lemma loadCart_returns u w : (loadCart JSON_parse u w).2 = Ok tt.
Proof.
  destruct (read_throws (localStorage w)) eqn:Hr.
  { by rewrite loadCart_read_fails. }
  destruct (entries (localStorage w) !! cart_key u) as [s|] eqn:Hs.
  2:{ by rewrite loadCart_absent. }
  destruct (decide (s = ""%string)) as [->|Hne].
  { by rewrite loadCart_empty_string. }
  destruct (JSON_parse s) as [payload|] eqn:Hp.
  - by rewrite (loadCart_parsed u w s payload).
  - by rewrite (loadCart_unparseable u w s).
Qed.

End ProviderFacts.

(** ** Calls on ids the cart does not hold *)

Lemma filter_other_ids pid (l : list CartLineItem) :
  pid ∉ id <$> l → filter (λ item, id item ≠ pid) l = l.
Proof.
  induction l as [|x l IH]; [done|].
  rewrite fmap_cons, not_elem_of_cons. intros [Hx Hl].
  rewrite filter_cons_True by done. by rewrite IH.
Qed.

Lemma set_quantity_other_ids pid q (l : list CartLineItem) :
  pid ∉ id <$> l →
  (λ item, if decide (id item = pid) then with_quantity item q else item) <$> l = l.
Proof.
  induction l as [|x l IH]; [done|].
  rewrite !fmap_cons, not_elem_of_cons. intros [Hx Hl].
  rewrite decide_False by done. by rewrite IH.
Qed.

Lemma settled_fixpoint state :
  consistent state → loading state = false → error state = None → settled state = state.
Proof.
  destruct state as [l t c ld e]. unfold consistent, settled. simpl.
  intros [-> ->] -> ->. done.
Qed.

(** C5, as the claim states it, fails: after a failed load the cart carries
    an error message, and removing or updating an id it does not hold clears
    the message. *)
Lemma absent_id_changes_state :
  (Some "sku9"%string ∉ id <$> items load_failed) ∧
  after_call load_failed (RemoveFromCart (Some "sku9"%string)) ≠ load_failed ∧
  after_call load_failed (UpdateQuantity (Some "sku9"%string) 5) ≠ load_failed.
Proof. split_and!; [apply not_elem_of_nil|discriminate|discriminate]. Qed.

Lemma settled_iff state :
  settled state = state ↔
  consistent state ∧ loading state = false ∧ error state = None.
Proof.
  split.
  - destruct state as [l t c ld e]. unfold settled, consistent. simpl.
    intros [= <- <- <- <-]. done.
  - intros (Hc & Hl & He). by apply settled_fixpoint.
Qed.

(** C5, amended. For a productId that is the id of no line, removeFromCart
    and updateQuantity with a positive quantity leave the items unchanged,
    set total and itemCount to the sums recomputed from the items, and set
    loading to false and error to null; the state is unchanged exactly when
    its derived fields were consistent, loading was false and error was null.
    Neither call throws. *)
Theorem absent_id_settles (state : CartState) (productId : js_id) (q : Z) :
  productId ∉ id <$> items state → 0 < q →
  after_call state (RemoveFromCart productId) = settled state ∧
  after_call state (UpdateQuantity productId q) = settled state ∧
  (settled state = state ↔
     consistent state ∧ loading state = false ∧ error state = None) ∧
  (∀ JSON_stringify u w,
     (perform JSON_stringify u (RemoveFromCart productId) w).2 = Ok tt ∧
     (perform JSON_stringify u (UpdateQuantity productId q) w).2 = Ok tt).
Proof.
  intros Habs Hq. split_and!.
  - unfold after_call, settled, call_action, cartReducer, remove_case.
    rewrite (filter_other_ids _ _ Habs).
    by rewrite reduce_total_sum, reduce_count_sum.
  - unfold after_call, settled, call_action, cartReducer.
    rewrite decide_False by lia.
    rewrite (set_quantity_other_ids _ _ _ Habs).
    by rewrite reduce_total_sum, reduce_count_sum.
  - apply settled_iff.
  - intros JSON_stringify u w. split; apply perform_returns.
Qed.

Lemma absent_id_settles_witness :
  after_call one_lamp (RemoveFromCart (Some "sku9"%string)) = settled one_lamp ∧
  after_call one_lamp (UpdateQuantity (Some "sku9"%string) 5) = settled one_lamp ∧
  (settled one_lamp = one_lamp ↔
     consistent one_lamp ∧ loading one_lamp = false ∧ error one_lamp = None) ∧
  (∀ JSON_stringify u w,
     (perform JSON_stringify u (RemoveFromCart (Some "sku9"%string)) w).2 = Ok tt ∧
     (perform JSON_stringify u (UpdateQuantity (Some "sku9"%string) 5) w).2 = Ok tt).
Proof.
  apply (absent_id_settles one_lamp (Some "sku9"%string) 5); [|lia].
  simpl. apply not_elem_of_cons. split; [discriminate|apply not_elem_of_nil].
Defined.

(** ** Loading *)

(** What holds of every failed load: it returns, with the error message set
    and [loading] false, and it leaves items, total and itemCount as they
    were. *)
Lemma failed_load_flags JSON_parse u w :
  read_throws (localStorage w) = true ∨
  (read_throws (localStorage w) = false ∧
   ∃ s, entries (localStorage w) !! cart_key u = Some s ∧ s ≠ ""%string ∧
        JSON_parse s = None) →
  (loadCart JSON_parse u w).2 = Ok tt ∧
  cart (loadCart JSON_parse u w).1 = flagged (cart w).
Proof.
  intros [Hr|(Hr & s & Hs & Hne & Hp)].
  - by rewrite loadCart_read_fails.
  - by rewrite (loadCart_unparseable JSON_parse u w s).
Qed.

(** C7. When the store cannot be read while the cart holds one lamp, the
    load returns with the error message set and loading false, but the cart
    is not emptied: the lamp, the total and the count stay. The branch for a
    missing cart dispatches CLEAR_CART; the failure branch dispatches only
    SET_ERROR. *)
Theorem failed_load_keeps_previous_cart (JSON_parse : string → option Payload)
    (u : option string) :
  let w := {| cart := one_lamp; localStorage := unusable_store; console := [] |} in
  (loadCart JSON_parse u w).2 = Ok tt ∧
  cart (loadCart JSON_parse u w).1 =
    {| items := [line_of_product sku1 1]; total := Num 1000; itemCount := 1;
       loading := false; error := Some "Failed to load cart"%string |}.
Proof. intros w. by rewrite loadCart_read_fails. Qed.

(** The same with a stored string that does not parse. *)
Example unparseable_load_keeps_previous_cart :
  let w := {| cart := one_lamp;
              localStorage := {| entries := {[ "cart_guest"%string := "{oops"%string ]};
                                 read_throws := false; write_throws := false |};
              console := [] |} in
  items (cart (loadCart (λ _, None) None w).1) = [line_of_product sku1 1] ∧
  error (cart (loadCart (λ _, None) None w).1) = Some "Failed to load cart"%string.
Proof.
  intros w.
  rewrite (loadCart_unparseable (λ _, None) None w "{oops"%string); done.
Qed.

(** C10. A stored cart that parses to items [l], total [t] and itemCount [c]
    is adopted as it is, without recomputing: the loaded state has exactly
    these fields, so when [t] differs from the sum of price * quantity over
    [l], the loaded total differs from the sum over the loaded items. *)
Theorem load_adopts_stored_fields (JSON_parse : string → option Payload)
    (u : option string) (w : World) (s : string)
    (l : list CartLineItem) (t c : Z) :
  read_throws (localStorage w) = false →
  entries (localStorage w) !! cart_key u = Some s →
  s ≠ ""%string →
  JSON_parse s = Some {| pl_items := Some l; pl_total := Some t; pl_itemCount := Some c |} →
  Num t ≠ sum_price_quantity l →
  items (cart (loadCart JSON_parse u w).1) = l ∧
  total (cart (loadCart JSON_parse u w).1) = Num t ∧
  itemCount (cart (loadCart JSON_parse u w).1) = c ∧
  loading (cart (loadCart JSON_parse u w).1) = false ∧
  total (cart (loadCart JSON_parse u w).1)
    ≠ sum_price_quantity (items (cart (loadCart JSON_parse u w).1)).
Proof.
  intros Hr Hs Hne Hp Hstale.
  rewrite (loadCart_parsed JSON_parse u w s _ Hr Hs Hne Hp). simpl.
  assert (∀ z, (if decide (z = 0) then 0 else z) = z) as Hz
    by (intros z; by destruct (decide (z = 0))).
  rewrite !Hz. done.
Qed.

Lemma load_adopts_stored_fields_witness :
  let w := {| cart := initialState;
              localStorage := {| entries := {[ "cart_guest"%string := "stale"%string ]};
                                 read_throws := false; write_throws := false |};
              console := [] |} in
  items (cart (loadCart parse_stale None w).1) = default [] (pl_items stale_payload) ∧
  total (cart (loadCart parse_stale None w).1) = Num 999 ∧
  itemCount (cart (loadCart parse_stale None w).1) = 1 ∧
  loading (cart (loadCart parse_stale None w).1) = false ∧
  total (cart (loadCart parse_stale None w).1)
    ≠ sum_price_quantity (items (cart (loadCart parse_stale None w).1)).
Proof.
  intros w.
  apply (load_adopts_stored_fields parse_stale None w "stale"%string).
  - reflexivity.
  - reflexivity.
  - discriminate.
  - reflexivity.
  - simpl. discriminate.
Defined.

(** ** Saving *)

(** C8, as the claim states it, fails: when the write after addToCart
    throws, the failure is logged to the console and the error field stays
    null. *)
Lemma failed_write_leaves_error_null :
  let w := {| cart := initialState; localStorage := unusable_store; console := [] |} in
  let w' := (perform (λ _, ""%string) None (AddToCart sku1 (Some 1)) w).1 in
  write_throws (localStorage w) = true ∧
  console w' = ["Error saving cart:"%string] ∧
  ¬ is_Some (error (cart w')).
Proof.
  intros w w'. split_and!; [done|done|].
  intros [msg Hmsg]. discriminate Hmsg.
Qed.

(** C8, amended. For every call, a write that throws afterwards is logged to
    the console and does not reach the caller; the cart the call produced is
    kept as it is, with its error field null, and the store is unchanged:
    nothing is rolled back and nothing is retried. *)
Theorem failed_write_keeps_mutation (JSON_stringify : SavedCart → string)
    (u : option string) (c : Call) (w : World) :
  write_throws (localStorage w) = true →
  (perform JSON_stringify u c w).2 = Ok tt ∧
  cart (perform JSON_stringify u c w).1 = after_call (cart w) c ∧
  error (cart (perform JSON_stringify u c w).1) = None ∧
  localStorage (perform JSON_stringify u c w).1 = localStorage w ∧
  console (perform JSON_stringify u c w).1 = console w ++ ["Error saving cart:"%string].
Proof.
  intros Hw. rewrite (perform_write_fails JSON_stringify u c w Hw). simpl.
  split_and!; try done. apply after_call_settled.
Qed.

Lemma failed_write_keeps_mutation_witness :
  let w := {| cart := one_lamp; localStorage := unusable_store; console := [] |} in
  let c := UpdateQuantity (Some "sku1"%string) 4 in
  (perform (λ _, ""%string) None c w).2 = Ok tt ∧
  cart (perform (λ _, ""%string) None c w).1 = after_call (cart w) c ∧
  error (cart (perform (λ _, ""%string) None c w).1) = None ∧
  localStorage (perform (λ _, ""%string) None c w).1 = localStorage w ∧
  console (perform (λ _, ""%string) None c w).1 = console w ++ ["Error saving cart:"%string].
Proof.
  intros w c. apply (failed_write_keeps_mutation (λ _, ""%string) None c w).
  reflexivity.
Defined.

(** * Further properties of the reducer *)

Lemma state_from_items (s1 s2 : CartState) :
  items s1 = items s2 →
  total s1 = reduce_total (items s1) → itemCount s1 = reduce_count (items s1) →
  total s2 = reduce_total (items s2) → itemCount s2 = reduce_count (items s2) →
  loading s1 = loading s2 → error s1 = error s2 →
  s1 = s2.
Proof.
  destruct s1, s2. simpl. intros <- -> -> -> -> <- <-. done.
Qed.

(** Two states left by calls are equal as soon as their items are. *)
Lemma after_call_ext s1 c1 s2 c2 :
  items (after_call s1 c1) = items (after_call s2 c2) →
  after_call s1 c1 = after_call s2 c2.
Proof.
  intros Hi.
  destruct (after_call_recomputes s1 c1) as [Ht1 Hc1].
  destruct (after_call_recomputes s2 c2) as [Ht2 Hc2].
  destruct (after_call_settled s1 c1) as [Hl1 He1].
  destruct (after_call_settled s2 c2) as [Hl2 He2].
  apply state_from_items; try done; congruence.
Qed.

Lemma after_call_is_settled state c s :
  items (after_call state c) = items s → after_call state c = settled s.
Proof.
  intros Hi.
  destruct (after_call_consistent state c) as [Ht Hc].
  destruct (after_call_settled state c) as [Hl He].
  destruct (after_call state c) as [l t n ld e]. unfold settled.
  simpl in *. by subst.
Qed.

Lemma after_add_items state P qty :
  items (after_call state (AddToCart P qty))
  = add_line P (default 1 qty) (items state).
Proof. unfold after_call. simpl call_action. by rewrite add_items. Qed.

Lemma after_remove_items state pid :
  items (after_call state (RemoveFromCart pid))
  = filter (λ item, id item ≠ pid) (items state).
Proof. done. Qed.

Lemma after_update_items state pid q :
  0 < q →
  items (after_call state (UpdateQuantity pid q))
  = (λ item, if decide (id item = pid) then with_quantity item q else item)
      <$> items state.
Proof. intros Hq. unfold after_call. simpl call_action. by apply update_items. Qed.

Lemma after_update_nonpositive_items state pid q :
  q ≤ 0 →
  items (after_call state (UpdateQuantity pid q))
  = filter (λ item, id item ≠ pid) (items state).
Proof.
  intros Hq. unfold after_call. simpl call_action.
  by rewrite (update_nonpositive _ _ _ Hq).
Qed.





(** On a cart whose count was adopted from the store, removing the lamp does
    not lower the count by one: it is recomputed from the lines left. *)
Example remove_on_stale_count :
  itemCount stale_count = 7 ∧
  itemCount (after_call stale_count (RemoveFromCart (Some "sku1"%string))) = 0.
Proof. split; reflexivity. Qed.

Lemma lines_of_set_quantity pid q (l : list CartLineItem) :
  lines_of pid
    ((λ item, if decide (id item = pid) then with_quantity item q else item) <$> l)
  = (λ item, with_quantity item q) <$> lines_of pid l.
Proof.
  unfold lines_of. induction l as [|x l IH]; [done|].
  rewrite fmap_cons, !filter_cons.
  destruct (decide (id x = pid)) as [Hx|Hx].
  - rewrite decide_True by done. by rewrite fmap_cons, IH.
  - by rewrite decide_False by done.
Qed.

Lemma lines_of_set_quantity_other pid other q (l : list CartLineItem) :
  other ≠ pid →
  lines_of other
    ((λ item, if decide (id item = pid) then with_quantity item q else item) <$> l)
  = lines_of other l.
Proof.
  intros Hne. unfold lines_of. induction l as [|x l IH]; [done|].
  rewrite fmap_cons, !filter_cons.
  destruct (decide (id x = pid)) as [Hx|Hx].
  - rewrite !decide_False; [done|congruence|simpl; congruence].
  - by rewrite IH.
Qed.

Lemma lines_of_present pid (l : list CartLineItem) :
  pid ∈ id <$> l → ∃ line rest, lines_of pid l = line :: rest.
Proof.
  intros [x [-> Hin]]%list_elem_of_fmap.
  assert (x ∈ lines_of (id x) l) as Hx by by apply list_elem_of_filter.
  destruct (lines_of (id x) l) as [|line rest]; [by apply elem_of_nil in Hx|eauto].
Qed.

(** X2. updateQuantity(productId, q) with q positive keeps the ids of the
    lines and their order, gives every line of that id the quantity q,
    leaves the lines of other ids as they were, and the cart then holds q of
    the id if it held a line of it. *)
Theorem update_sets_quantity (state : CartState) (productId : js_id) (q : Z) :
  0 < q →
  id <$> items (after_call state (UpdateQuantity productId q)) = id <$> items state ∧
  lines_of productId (items (after_call state (UpdateQuantity productId q)))
  = (λ item, with_quantity item q) <$> lines_of productId (items state) ∧
  (∀ other, other ≠ productId →
     lines_of other (items (after_call state (UpdateQuantity productId q)))
     = lines_of other (items state)) ∧
  (productId ∈ id <$> items state →
     quantity_of productId (items (after_call state (UpdateQuantity productId q))) = q).
Proof.
  intros Hq. rewrite (after_update_items _ _ _ Hq). split_and!.
  - apply ids_set_quantity.
  - apply lines_of_set_quantity.
  - intros other Hne. by apply lines_of_set_quantity_other.
  - intros Hin. unfold quantity_of. rewrite lines_of_set_quantity.
    by destruct (lines_of_present _ _ Hin) as (line & rest & ->).
Qed.

Lemma update_sets_quantity_witness :
  id <$> items (after_call one_lamp (UpdateQuantity (Some "sku1"%string) 4))
  = id <$> items one_lamp ∧
  lines_of (Some "sku1"%string)
    (items (after_call one_lamp (UpdateQuantity (Some "sku1"%string) 4)))
  = (λ item, with_quantity item 4) <$> lines_of (Some "sku1"%string) (items one_lamp) ∧
  (∀ other, other ≠ Some "sku1"%string →
     lines_of other (items (after_call one_lamp (UpdateQuantity (Some "sku1"%string) 4)))
     = lines_of other (items one_lamp)) ∧
  (Some "sku1"%string ∈ id <$> items one_lamp →
     quantity_of (Some "sku1"%string)
       (items (after_call one_lamp (UpdateQuantity (Some "sku1"%string) 4))) = 4).
Proof. apply (update_sets_quantity one_lamp (Some "sku1"%string) 4). lia. Defined.

(** X3. Adding a product whose id the cart does not hold and then removing
    that id gives back the items; the state is the prior one with its derived
    fields recomputed, loading false and error null. *)
Theorem add_then_remove_restores (state : CartState) (P : Product) (qty : option Z) :
  p_id P ∉ id <$> items state →
  after_call (after_call state (AddToCart P qty)) (RemoveFromCart (p_id P))
  = settled state.
Proof.
  intros Habs. apply after_call_is_settled.
  rewrite after_remove_items, after_add_items, (add_line_absent _ _ _ Habs).
  rewrite filter_app, (filter_other_ids _ _ Habs).
  rewrite filter_cons_False, filter_nil; [by rewrite app_nil_r|].
  simpl. by intros Hn.
Qed.

Lemma add_then_remove_restores_witness :
  after_call (after_call one_lamp (AddToCart sku2 (Some 3))) (RemoveFromCart (p_id sku2))
  = settled one_lamp.
Proof.
  apply (add_then_remove_restores one_lamp sku2 (Some 3)).
  simpl. apply not_elem_of_cons. split; [discriminate|apply not_elem_of_nil].
Defined.

Lemma set_quantity_twice pid q1 q2 (l : list CartLineItem) :
  (λ item, if decide (id item = pid) then with_quantity item q2 else item)
    <$> ((λ item, if decide (id item = pid) then with_quantity item q1 else item) <$> l)
  = (λ item, if decide (id item = pid) then with_quantity item q2 else item) <$> l.
Proof.
  rewrite <- list_fmap_compose. apply list_fmap_ext. intros i x _. simpl.
  destruct (decide (id x = pid)) as [Hx|Hx].
  - simpl. by rewrite decide_True by done.
  - by rewrite decide_False by done.
Qed.

Lemma filter_set_quantity pid q (l : list CartLineItem) :
  filter (λ item, id item ≠ pid)
    ((λ item, if decide (id item = pid) then with_quantity item q else item) <$> l)
  = filter (λ item, id item ≠ pid) l.
Proof.
  induction l as [|x l IH]; [done|].
  rewrite fmap_cons, !filter_cons. destruct (decide (id x = pid)) as [Hx|Hx].
  - rewrite !decide_False; [done| |]; simpl; intros Hn; by apply Hn.
  - rewrite !decide_True by done. by rewrite IH.
Qed.

(** X4. A later updateQuantity overrides an earlier one with a positive
    quantity: updateQuantity(id, q1) followed by updateQuantity(id, q2) gives
    the state updateQuantity(id, q2) gives alone, whatever q2 is. *)
Theorem update_overrides_update (state : CartState) (productId : js_id) (q1 q2 : Z) :
  0 < q1 →
  after_call (after_call state (UpdateQuantity productId q1)) (UpdateQuantity productId q2)
  = after_call state (UpdateQuantity productId q2).
Proof.
  intros Hq1. apply after_call_ext.
  destruct (decide (q2 ≤ 0)) as [Hq2|Hq2].
  - rewrite !(after_update_nonpositive_items _ _ _ Hq2).
    rewrite (after_update_items _ _ _ Hq1). apply filter_set_quantity.
  - rewrite !(after_update_items _ _ q2) by lia.
    rewrite (after_update_items _ _ _ Hq1). apply set_quantity_twice.
Qed.

Lemma update_overrides_update_witness :
  after_call (after_call one_lamp (UpdateQuantity (Some "sku1"%string) 7))
             (UpdateQuantity (Some "sku1"%string) 2)
  = after_call one_lamp (UpdateQuantity (Some "sku1"%string) 2).
Proof. apply (update_overrides_update one_lamp (Some "sku1"%string) 7 2). lia. Defined.

Lemma add_line_twice P m n (l : list CartLineItem) :
  add_line P n (add_line P m l) = add_line P (m + n) l.
Proof.
  induction l as [|x l IH]; simpl.
  - rewrite decide_True by done. unfold with_quantity, line_of_product. simpl. done.
  - destruct (decide (id x = p_id P)) as [Hx|Hx]; simpl.
    + rewrite decide_True by done. unfold with_quantity. simpl. do 2 f_equal. lia.
    + rewrite decide_False by done. by rewrite IH.
Qed.

(** X5. Two additions of one product amount to one addition of the summed
    quantity: addToCart(P, m) followed by addToCart(P, n) gives the state
    addToCart(P, m + n) gives, in every cart and for all m and n. *)
Theorem add_twice_is_add_sum (state : CartState) (P : Product) (m n : Z) :
  after_call (after_call state (AddToCart P (Some m))) (AddToCart P (Some n))
  = after_call state (AddToCart P (Some (m + n))).
Proof. apply after_call_ext. rewrite !after_add_items. apply add_line_twice. Qed.

Lemma filter_ids_comm a b (l : list CartLineItem) :
  filter (λ item, id item ≠ b) (filter (λ item, id item ≠ a) l)
  = filter (λ item, id item ≠ a) (filter (λ item, id item ≠ b) l).
Proof. rewrite !list_filter_filter. apply list_filter_iff. intros x. tauto. Qed.

(** X6. Removals commute and removing twice is removing once:
    removeFromCart(a) then removeFromCart(b) gives the state of the opposite
    order, and removeFromCart(a) twice gives the state of one call. *)
Theorem remove_commutes_and_is_idempotent (state : CartState) (a b : js_id) :
  after_call (after_call state (RemoveFromCart a)) (RemoveFromCart b)
  = after_call (after_call state (RemoveFromCart b)) (RemoveFromCart a) ∧
  after_call (after_call state (RemoveFromCart a)) (RemoveFromCart a)
  = after_call state (RemoveFromCart a).
Proof.
  split; apply after_call_ext; rewrite !after_remove_items.
  - apply filter_ids_comm.
  - apply list_filter_filter_r. done.
Qed.

Lemma descriptors_add_line P q (l : list CartLineItem) :
  descriptor <$> take (length l) (add_line P q l) = descriptor <$> l.
Proof.
  induction l as [|x l IH]; [done|]. cbn [add_line length].
  destruct (decide (id x = p_id P)) as [Hx|Hx]; cbn [take]; rewrite !fmap_cons.
  - by rewrite firstn_all.
  - f_equal. exact IH.
Qed.

Lemma length_add_line P q (l : list CartLineItem) :
  length (add_line P q l)
  = if decide (p_id P ∈ id <$> l) then length l else S (length l).
Proof.
  rewrite <- (length_fmap id (add_line P q l)), ids_add_line.
  destruct (decide (p_id P ∈ id <$> l)).
  - by rewrite length_fmap.
  - rewrite length_app, length_fmap. simpl. lia.
Qed.

(** X7. addToCart never moves, drops or rewrites an existing line: the lines
    the cart held keep their positions and all their fields except the
    quantity, even when the descriptor carries another name or price for an
    id already in the cart; at most one line is added, at the end, and only
    when the id is new. *)
Theorem add_keeps_existing_lines (state : CartState) (P : Product) (qty : option Z) :
  descriptor <$> take (length (items state)) (items (after_call state (AddToCart P qty)))
  = descriptor <$> items state ∧
  length (items (after_call state (AddToCart P qty)))
  = if decide (p_id P ∈ id <$> items state) then length (items state)
    else S (length (items state)).
Proof.
  rewrite after_add_items. split.
  - apply descriptors_add_line.
  - apply length_add_line.
Qed.

Lemma positive_add_line P q (l : list CartLineItem) :
  0 < q → Forall (λ line, 0 < quantity line) l →
  Forall (λ line, 0 < quantity line) (add_line P q l).
Proof.
  intros Hq. induction 1 as [|x l Hx Hl IH]; simpl.
  - repeat constructor. simpl. lia.
  - destruct (decide (id x = p_id P)); constructor; simpl; try done. lia.
Qed.

Lemma Forall_kept_by_filter {A} (Q P : A → Prop) `{∀ x, Decision (P x)} (l : list A) :
  Forall Q l → Forall Q (filter P l).
Proof.
  rewrite !Forall_forall. intros Hl x [_ Hx]%list_elem_of_filter. by apply Hl.
Qed.

Lemma after_call_positive state c :
  adds_positive c = true →
  Forall (λ line, 0 < quantity line) (items state) →
  Forall (λ line, 0 < quantity line) (items (after_call state c)).
Proof.
  intros Hc Hs. destruct c as [P qty|pid|pid q|].
  - rewrite after_add_items. apply positive_add_line; [|done].
    simpl in Hc. by apply bool_decide_eq_true in Hc.
  - rewrite after_remove_items. by apply Forall_kept_by_filter.
  - destruct (decide (q ≤ 0)) as [Hq|Hq].
    + rewrite (after_update_nonpositive_items _ _ _ Hq). by apply Forall_kept_by_filter.
    + rewrite after_update_items by lia. apply Forall_fmap.
      eapply Forall_impl; [exact Hs|]. intros x Hx. unfold compose.
      destruct (decide (id x = pid)); cbn in *; lia.
  - constructor.
Qed.

(** X8. Starting from the empty cart, as long as every addToCart adds a
    positive quantity (the default of one included), no sequence of
    addToCart, removeFromCart, updateQuantity and clearCart calls leaves a
    line whose quantity is zero or negative. *)
Theorem quantities_stay_positive (calls : list Call) :
  forallb adds_positive calls = true →
  Forall (λ line, 0 < quantity line) (items (after_calls initialState calls)).
Proof.
  intros Hcalls.
  assert (∀ state, Forall (λ line, 0 < quantity line) (items state) →
            Forall (λ line, 0 < quantity line) (items (after_calls state calls))) as Hgen.
  { induction calls as [|c calls IH]; intros state Hs; [done|].
    simpl in Hcalls. apply andb_true_iff in Hcalls as [Hc Hrest].
    simpl. apply IH; [done|]. by apply after_call_positive. }
  apply Hgen. constructor.
Qed.

Lemma quantities_stay_positive_witness :
  Forall (λ line, 0 < quantity line)
    (items (after_calls initialState
              [AddToCart sku1 (Some 2); AddToCart sku2 None;
               UpdateQuantity (Some "sku1"%string) (-3);
               AddToCart sku1 (Some 3); UpdateQuantity (Some "sku2"%string) 9])).
Proof. apply quantities_stay_positive. reflexivity. Defined.

(** * Further properties of the provider *)

Lemma or_zero_Some z : or_zero (Some z) = z.
Proof. unfold or_zero. by destruct (decide (z = 0)). Qed.

Lemma load_saved state prior :
  cartReducer prior (LOAD_CART (payload_of_saved (saved_of state))) = reloaded state.
Proof. unfold reloaded. cbn -[or_zero]. by rewrite or_zero_Some. Qed.

Lemma reloaded_number state :
  total state ≠ NaN → loading state = false → error state = None →
  reloaded state = state.
Proof.
  destruct state as [l t n ld e]. unfold reloaded. simpl.
  intros Ht -> ->. destruct t as [z|]; [|done]. cbn -[or_zero]. by rewrite or_zero_Some.
Qed.

Lemma cart_key_inj u v : cart_key u = cart_key v ↔ userId u = userId v.
Proof.
  unfold cart_key. split; [|by intros ->].
  simpl. intros Heq. by injection Heq.
Qed.

Lemma perform_write_succeeds JSON_stringify u c w :
  write_throws (localStorage w) = false →
  perform JSON_stringify u c w =
    ({| cart := after_call (cart w) c;
        localStorage :=
          {| entries := <[cart_key u := JSON_stringify (saved_of (after_call (cart w) c))]>
                          (entries (localStorage w));
             read_throws := read_throws (localStorage w);
             write_throws := false |};
        console := console w |}, Ok tt).
Proof.
  intros Hw. unfold perform, mbind, M_bind, bind. rewrite call_op_dispatches.
  rewrite saveCart_settled by apply after_call_settled. simpl. by rewrite Hw.
Qed.

(** Unfolds the monad of the queued effects down to functions. *)
Ltac run_queued :=
  unfold Queued.loadCart, mbind, Queued.M_bind, mret, Queued.M_ret, Queued.bind,
    Queued.ret, Queued.throw, Queued.try_catch, Queued.dispatch,
    Queued.console_error, Queued.getItem, Queued.mounted;
  simpl.

(** What the load effect queues, by what the store holds. *)
Lemma queued_load_fails JSON_parse u storage :
  Queued.load_fails JSON_parse u storage →
  Queued.loadCart JSON_parse u (Queued.mounted storage) =
    ({| Queued.queue := [Queued.action_of (SET_LOADING true);
                         Queued.action_of (SET_ERROR "Failed to load cart"%string)];
        Queued.localStorage := storage;
        Queued.console := ["Error loading cart:"%string] |}, Ok tt).
Proof.
  intros [Hr|(s & Hs & Hne & Hp)]; run_queued.
  - by rewrite Hr.
  - destruct (read_throws storage); [done|]. rewrite Hs.
    rewrite decide_False by done. unfold Queued.parse. rewrite Hp. by run_queued.
Qed.

Lemma queued_load_parsed JSON_parse u storage s parsed :
  read_throws storage = false →
  entries storage !! cart_key u = Some s →
  s ≠ ""%string →
  JSON_parse s = Some parsed →
  Queued.loadCart JSON_parse u (Queued.mounted storage) =
    ({| Queued.queue := [Queued.action_of (SET_LOADING true); Queued.load_cart parsed];
        Queued.localStorage := storage; Queued.console := [] |}, Ok tt).
Proof.
  intros Hr Hs Hne Hp. run_queued. rewrite Hr, Hs.
  rewrite decide_False by done. unfold Queued.parse. rewrite Hp. by run_queued.
Qed.

Lemma queued_load_nothing_saved JSON_parse u storage :
  read_throws storage = false →
  entries storage !! cart_key u = None ∨ entries storage !! cart_key u = Some ""%string →
  Queued.loadCart JSON_parse u (Queued.mounted storage) =
    ({| Queued.queue := [Queued.action_of (SET_LOADING true); Queued.action_of CLEAR_CART];
        Queued.localStorage := storage; Queued.console := [] |}, Ok tt).
Proof. intros Hr [Hs|Hs]; run_queued; by rewrite Hr, Hs. Qed.

(** When [JSON.parse] yields no [null], the render after the load gives the
    cart that reducing at each [dispatch] gives. *)
Lemma queued_load_agrees (JSON_parse : string → option Payload) u w :
  Queued.render (cart w)
    (Queued.queue
       (Queued.loadCart (Queued.never_null JSON_parse) u
          (Queued.mounted (localStorage w))).1)
  = Ok (cart (loadCart JSON_parse u w).1).
Proof.
  destruct (read_throws (localStorage w)) eqn:Hr.
  { rewrite queued_load_fails by by left. by rewrite loadCart_read_fails. }
  destruct (entries (localStorage w) !! cart_key u) as [s|] eqn:Hs.
  2:{ rewrite queued_load_nothing_saved by auto. by rewrite loadCart_absent. }
  destruct (decide (s = ""%string)) as [->|Hne].
  { rewrite queued_load_nothing_saved by auto. by rewrite loadCart_empty_string. }
  destruct (JSON_parse s) as [payload|] eqn:Hp.
  - rewrite (queued_load_parsed _ u _ s (Queued.parsed_value payload)); try done.
    + by rewrite (loadCart_parsed JSON_parse u w s payload).
    + unfold Queued.never_null. by rewrite Hp.
  - rewrite queued_load_fails.
    + by rewrite (loadCart_unparseable JSON_parse u w s).
    + right. exists s. unfold Queued.never_null. by rewrite Hp.
Qed.

(** The text [null] in the store: the load effect returns, and the render
    that follows throws. *)
Example stored_null_breaks_render :
  (Queued.loadCart Queued.parse_null None (Queued.mounted Queued.null_store)).2 = Ok tt ∧
  Queued.render initialState
    (Queued.queue
       (Queued.loadCart Queued.parse_null None (Queued.mounted Queued.null_store)).1)
  = Throw "TypeError"%string.
Proof. split; reflexivity. Qed.

(** X9. The load effect itself never throws and never writes to the store:
    it queues its actions and returns.  When the stored text parses to
    [null], the render that reduces the queue throws a TypeError, which the
    [try] of the effect does not cover.  In every other case the render
    ends with loading false, and with an error message exactly when the read
    threw or a stored, non-empty string did not parse. *)
Theorem load_settles_and_flags_failures (JSON_parse : string → option Queued.Parsed)
    (u : option string) (storage : Storage) (state : CartState) :
  (Queued.loadCart JSON_parse u (Queued.mounted storage)).2 = Ok tt ∧
  Queued.localStorage (Queued.loadCart JSON_parse u (Queued.mounted storage)).1 = storage ∧
  (Queued.render state
     (Queued.queue (Queued.loadCart JSON_parse u (Queued.mounted storage)).1)
   = Throw "TypeError"%string ↔ Queued.stored_null JSON_parse u storage) ∧
  (¬ Queued.stored_null JSON_parse u storage →
   ∃ state',
     Queued.render state
       (Queued.queue (Queued.loadCart JSON_parse u (Queued.mounted storage)).1)
     = Ok state' ∧
     loading state' = false ∧
     (is_Some (error state') ↔ Queued.load_fails JSON_parse u storage)).
Proof.
  destruct (read_throws storage) eqn:Hr.
  { assert (Queued.load_fails JSON_parse u storage) as Hf by by left.
    rewrite (queued_load_fails _ _ _ Hf). simpl. split_and!; try done.
    - split; [done|]. intros [Hr' _]. congruence.
    - intros _. eexists. split_and!; [done..|]. simpl. split; [done|by eexists]. }
  destruct (entries storage !! cart_key u) as [s|] eqn:Hs.
  2:{ rewrite queued_load_nothing_saved by auto. simpl. split_and!; try done.
      - split; [done|]. intros (_ & s & Hs' & _). congruence.
      - intros _. eexists. split_and!; [done..|]. simpl.
        split; [by intros [? ?]|]. intros [?|(s & Hs' & _)]; congruence. }
  destruct (decide (s = ""%string)) as [->|Hne].
  { rewrite queued_load_nothing_saved by auto. simpl. split_and!; try done.
    - split; [done|]. intros (_ & s & Hs' & Hne & _). congruence.
    - intros _. eexists. split_and!; [done..|]. simpl.
      split; [by intros [? ?]|]. intros [?|(s & Hs' & Hne & _)]; congruence. }
  destruct (JSON_parse s) as [[|payload]|] eqn:Hp.
  - rewrite (queued_load_parsed _ u _ s Queued.parsed_null) by done. simpl.
    split_and!; try done.
    + split; [|done]. intros _. split; [done|]. by exists s.
    + intros Hn. exfalso. apply Hn. split; [done|]. by exists s.
  - rewrite (queued_load_parsed _ u _ s (Queued.parsed_value payload)) by done. simpl.
    split_and!; try done.
    + split; [done|]. intros (_ & s' & Hs' & _ & Hp'). congruence.
    + intros _. eexists. split_and!; [done..|]. simpl.
      split; [by intros [? ?]|]. intros [?|(s' & Hs' & _ & Hp')]; congruence.
  - assert (Queued.load_fails JSON_parse u storage) as Hf.
    { right. by exists s. }
    rewrite (queued_load_fails _ _ _ Hf). simpl. split_and!; try done.
    + split; [done|]. intros (_ & s' & Hs' & _ & Hp'). congruence.
    + intros _. eexists. split_and!; [done..|]. simpl. split; [done|by eexists].
Qed.

(** X10. What a call saved comes back: when the store works and the JSON
    functions round-trip the saved cart, loading for the same user, whatever
    cart is in memory by then, gives the state the call left, with a NaN
    total read back as 0; so it gives exactly that state when its total is a
    number. *)
Theorem saved_cart_loads_back (JSON_parse : string → option Payload)
    (JSON_stringify : SavedCart → string) (u : option string) (c : Call)
    (w : World) (later : CartState) :
  read_throws (localStorage w) = false →
  write_throws (localStorage w) = false →
  json_round_trip JSON_parse JSON_stringify (saved_of (after_call (cart w) c)) →
  cart (loadCart JSON_parse u (with_cart (perform JSON_stringify u c w).1 later)).1
  = reloaded (after_call (cart w) c) ∧
  (total (after_call (cart w) c) ≠ NaN →
   reloaded (after_call (cart w) c) = after_call (cart w) c).
Proof.
  intros Hr Hw [Hne Hp]. split.
  - rewrite (perform_write_succeeds _ _ _ _ Hw).
    rewrite (loadCart_parsed JSON_parse u _
               (JSON_stringify (saved_of (after_call (cart w) c)))
               (payload_of_saved (saved_of (after_call (cart w) c)))).
    + apply load_saved.
    + done.
    + apply lookup_insert_eq.
    + done.
    + done.
  - intros Ht. apply reloaded_number; [done|apply after_call_settled..].
Qed.

Lemma saved_cart_loads_back_witness :
  let w := {| cart := one_lamp; localStorage := empty_store; console := [] |} in
  let c := AddToCart sku2 (Some 2) in
  let known := saved_of (after_call one_lamp c) in
  cart (loadCart (parse_two known) None
          (with_cart (perform stringify_two None c w).1 while_loading)).1
  = reloaded (after_call (cart w) c) ∧
  (total (after_call (cart w) c) ≠ NaN →
   reloaded (after_call (cart w) c) = after_call (cart w) c).
Proof.
  intros w c known.
  apply (saved_cart_loads_back (parse_two known) stringify_two None c w while_loading).
  - reflexivity.
  - reflexivity.
  - split; [discriminate|reflexivity].
Defined.

(** X11. A save writes under the key of the current user only: the entry of
    every user with another user id is left as it was. Two users share a key
    exactly when they share a user id, and no user, the empty uid and the uid
    guest all have the user id guest. *)
Theorem save_is_scoped_by_user (JSON_stringify : SavedCart → string)
    (u v : option string) (c : Call) (w : World) :
  userId v ≠ userId u →
  entries (localStorage (perform JSON_stringify u c w).1) !! cart_key v
  = entries (localStorage w) !! cart_key v ∧
  (∀ a b, cart_key a = cart_key b ↔ userId a = userId b) ∧
  userId None = userId (Some "guest"%string) ∧
  userId None = userId (Some ""%string).
Proof.
  intros Hne. split_and!; [|apply cart_key_inj|done|done].
  destruct (write_throws (localStorage w)) eqn:Hw.
  - by rewrite (perform_write_fails _ _ _ _ Hw).
  - rewrite (perform_write_succeeds _ _ _ _ Hw). simpl.
    apply lookup_insert_ne. intros Heq. apply Hne. symmetry. by apply cart_key_inj.
Qed.

Lemma save_is_scoped_by_user_witness :
  let w := {| cart := one_lamp; localStorage := empty_store; console := [] |} in
  entries (localStorage (perform stringify_two (Some "alice"%string)
                           (AddToCart sku2 None) w).1) !! cart_key None
  = entries (localStorage w) !! cart_key None ∧
  (∀ a b, cart_key a = cart_key b ↔ userId a = userId b) ∧
  userId None = userId (Some "guest"%string) ∧
  userId None = userId (Some ""%string).
Proof.
  intros w.
  apply (save_is_scoped_by_user stringify_two (Some "alice"%string) None
           (AddToCart sku2 None) w).
  discriminate.
Defined.

Lemma switch_user_absent JSON_parse JSON_stringify v w :
  read_throws (localStorage w) = false →
  write_throws (localStorage w) = false →
  entries (localStorage w) !! cart_key v = None →
  switch_user JSON_parse JSON_stringify v w =
    ({| cart := initialState;
        localStorage :=
          {| entries := <[cart_key v := JSON_stringify (saved_of initialState)]>
                          (entries (localStorage w));
             read_throws := false; write_throws := false |};
        console := console w |}, Ok tt).
Proof.
  intros Hr Hw Hs. unfold switch_user, mbind, M_bind, bind.
  rewrite loadCart_absent by done.
  rewrite saveCart_settled by done. simpl. by rewrite Hw, Hr.
Qed.

Lemma switch_user_parsed JSON_parse JSON_stringify v w s payload :
  read_throws (localStorage w) = false →
  write_throws (localStorage w) = false →
  entries (localStorage w) !! cart_key v = Some s →
  s ≠ ""%string →
  JSON_parse s = Some payload →
  cart (switch_user JSON_parse JSON_stringify v w).1
  = cartReducer (cart w) (LOAD_CART payload).
Proof.
  intros Hr Hw Hs Hne Hp. unfold switch_user, mbind, M_bind, bind.
  rewrite (loadCart_parsed JSON_parse v w s payload) by done.
  rewrite saveCart_settled by done. simpl. by rewrite Hw.
Qed.

(** X12. Carts of different users stay apart. With a store that works, after
    a call saved user A's cart, switching to a user B who has nothing stored
    gives the empty cart, and switching back to A gives A's cart as it was
    saved (a NaN total read back as 0). *)
Theorem switching_users_keeps_carts_apart (JSON_parse : string → option Payload)
    (JSON_stringify : SavedCart → string) (a b : option string) (c : Call) (w : World) :
  userId a ≠ userId b →
  read_throws (localStorage w) = false →
  write_throws (localStorage w) = false →
  entries (localStorage w) !! cart_key b = None →
  json_round_trip JSON_parse JSON_stringify (saved_of (after_call (cart w) c)) →
  cart (switch_user JSON_parse JSON_stringify b (perform JSON_stringify a c w).1).1
  = initialState ∧
  cart (switch_user JSON_parse JSON_stringify a
          (switch_user JSON_parse JSON_stringify b (perform JSON_stringify a c w).1).1).1
  = reloaded (after_call (cart w) c).
Proof.
  intros Hab Hr Hw Hb [Hne Hp].
  assert (cart_key b ≠ cart_key a) as Hkeys.
  { intros Heq. apply Hab. symmetry. by apply cart_key_inj. }
  rewrite (perform_write_succeeds _ _ _ _ Hw).
  rewrite switch_user_absent; simpl; try done.
  2:{ by rewrite lookup_insert_ne. }
  split; [done|].
  rewrite (switch_user_parsed JSON_parse JSON_stringify a _
             (JSON_stringify (saved_of (after_call (cart w) c)))
             (payload_of_saved (saved_of (after_call (cart w) c)))); simpl; try done.
  - apply (load_saved _ initialState).
  - rewrite lookup_insert_ne by done. apply lookup_insert_eq.
Qed.

Lemma switching_users_keeps_carts_apart_witness :
  let w := {| cart := one_lamp; localStorage := empty_store; console := [] |} in
  let c := AddToCart sku2 (Some 2) in
  let known := saved_of (after_call one_lamp c) in
  let alice := Some "alice"%string in
  cart (switch_user (parse_two known) stringify_two None
          (perform stringify_two alice c w).1).1
  = initialState ∧
  cart (switch_user (parse_two known) stringify_two alice
          (switch_user (parse_two known) stringify_two None
             (perform stringify_two alice c w).1).1).1
  = reloaded (after_call (cart w) c).
Proof.
  intros w c known alice.
  apply (switching_users_keeps_carts_apart (parse_two known) stringify_two alice None c w).
  - discriminate.
  - reflexivity.
  - reflexivity.
  - reflexivity.
  - split; [discriminate|reflexivity].
Defined.

(** * The product page *)

Lemma quantity_of_add_line P q (l : list CartLineItem) :
  quantity_of (p_id P) (add_line P q l) = quantity_of (p_id P) l + q.
Proof.
  unfold quantity_of. rewrite lines_of_add_line.
  destruct (lines_of (p_id P) l); simpl; lia.
Qed.

(** X13. On the product page the chosen quantity does not reach the cart:
    for a loaded product and a signed-in user, whatever quantity was chosen,
    handleAddToCart makes a call after which the cart holds exactly one more
    of the product; itemCount is recomputed and becomes the sum of the prior
    lines' quantities plus one, so it is one higher exactly when the prior
    itemCount was the sum of the prior lines' quantities (a count adopted
    from the store by LOAD_CART need not be); the new line carries no
    category. Without a user no call is made. *)
Theorem product_page_adds_one (state : CartState) (product : CatalogProduct)
    (uid : string) (chosen : Z) :
  ∃ c,
    ao_call (handleAddToCart (Some product) (Some uid) chosen) = Some c ∧
    quantity_of (cp_id product) (items (after_call state c))
    = quantity_of (cp_id product) (items state) + 1 ∧
    itemCount (after_call state c) = sum_quantity (items state) + 1 ∧
    (itemCount (after_call state c) = itemCount state + 1 ↔
       itemCount state = sum_quantity (items state)) ∧
    (cp_id product ∉ id <$> items state →
     category <$> last (items (after_call state c)) = Some None) ∧
    ao_call (handleAddToCart (Some product) None chosen) = None.
Proof.
  eexists. split; [reflexivity|]. split_and!.
  - rewrite after_add_items. apply (quantity_of_add_line (page_descriptor product chosen) 1).
  - destruct (after_call_consistent state
                (AddToCart (page_descriptor product chosen) None)) as [_ ->].
    by rewrite after_add_items, sum_quantity_add_line.
  - destruct (after_call_consistent state
                (AddToCart (page_descriptor product chosen) None)) as [_ ->].
    rewrite after_add_items, sum_quantity_add_line. unfold default. lia.
  - intros Habs. rewrite after_add_items, add_line_absent by done.
    by rewrite last_snoc.
  - done.
Qed.

(** * The checkout form *)

Lemma drop_whitespace_shape (l : list ascii) :
  drop_whitespace l = [] ∨
  ∃ a rest, drop_whitespace l = a :: rest ∧ is_whitespace a = false.
Proof.
  induction l as [|a l IH]; [by left|]. simpl.
  destruct (is_whitespace a) eqn:Ha; [done|]. right. by exists a, l.
Qed.

Lemma drop_whitespace_nil (l : list ascii) :
  drop_whitespace l = [] ↔ Forall (λ a, is_whitespace a = true) l.
Proof.
  induction l as [|a l IH]; simpl.
  - split; [constructor|done].
  - destruct (is_whitespace a) eqn:Ha.
    + rewrite IH. split; [by constructor|by inversion 1].
    + split; [done|]. inversion 1; congruence.
Qed.

Lemma string_of_list_ascii_nil (l : list ascii) :
  String.string_of_list_ascii l = ""%string ↔ l = [].
Proof. destruct l; simpl; split; done. Qed.

Lemma reverse_nil_iff {A} (l : list A) : reverse l = [] ↔ l = [].
Proof.
  split; [|by intros ->].
  intros Hr. apply (f_equal length) in Hr. rewrite length_reverse in Hr.
  by destruct l.
Qed.

(** [!s.trim()] holds exactly of the strings of whitespace only. *)
Lemma blank_spec s : blank s = true ↔ all_whitespace s.
Proof.
  unfold blank, all_whitespace, trim. rewrite bool_decide_eq_true.
  rewrite string_of_list_ascii_nil, reverse_nil_iff, drop_whitespace_nil, Forall_reverse.
  destruct (drop_whitespace_shape (String.list_ascii_of_string s))
    as [Hd|(a & rest & Hd & Ha)]; rewrite Hd.
  - split; [|constructor]. intros _. by apply drop_whitespace_nil.
  - split; [inversion 1; congruence|].
    intros Hall. apply drop_whitespace_nil in Hall. congruence.
Qed.

Lemma blank_false s : blank s = false ↔ ¬ all_whitespace s.
Proof. rewrite <- blank_spec. by destruct (blank s). Qed.

Ltac split_fields H :=
  repeat (apply Forall_cons in H as [? H]).

(** X14. The checkout form hands an order to addOrder exactly when none of
    its nine required fields is blank (empty or whitespace only), whatever
    the cart holds; it clears the cart exactly when, in addition, addOrder
    succeeded; it makes no other call on the cart; and it leaves no error
    message exactly when it cleared the cart. *)
Theorem checkout_clears_cart_only_after_order (formData : FormData)
    (currentUser : option string) (lines : list CartLineItem) (sum : num)
    (addOrder : Order → bool) :
  (is_Some (so_order (handleSubmit formData currentUser lines sum addOrder)) ↔
     Forall (λ s, ¬ all_whitespace s) (required_fields formData)) ∧
  (so_call (handleSubmit formData currentUser lines sum addOrder) = Some ClearCart ↔
     Forall (λ s, ¬ all_whitespace s) (required_fields formData) ∧
     addOrder (orderData formData currentUser lines sum) = true) ∧
  (so_call (handleSubmit formData currentUser lines sum addOrder) = None ∨
   so_call (handleSubmit formData currentUser lines sum addOrder) = Some ClearCart) ∧
  (so_error (handleSubmit formData currentUser lines sum addOrder) = None ↔
     so_call (handleSubmit formData currentUser lines sum addOrder) = Some ClearCart).
Proof.
  unfold handleSubmit, required_fields.
  repeat match goal with
  | |- context [if blank ?s then _ else _] =>
      let Hb := fresh "Hb" in
      destruct (blank s) eqn:Hb;
      [ apply blank_spec in Hb; simpl; split_and!;
        [ split; [by intros [? ?]|intros HF; split_fields HF; done]
        | split; [done|intros [HF _]; split_fields HF; done]
        | by left
        | done ]
      | apply blank_false in Hb ]
  end.
  assert (Forall (λ s, ¬ all_whitespace s)
            [fd_firstName formData; fd_lastName formData; fd_email formData;
             fd_phone formData; fd_address formData; fd_city formData;
             fd_state formData; fd_zipCode formData; fd_country formData]) as Hall
    by (repeat constructor; done).
  cbv zeta. destruct (addOrder (orderData formData currentUser lines sum)); simpl.
  - split_and!; [by split; eauto|done|by right|done].
  - split_and!; [by split; eauto|split; [done|by intros [_ ?]]|by left|done].
Qed.

Example checkout_of_filled_form :
  so_call (handleSubmit filled_form (Some "alice"%string) (items one_lamp)
             (total one_lamp) (λ _, true)) = Some ClearCart ∧
  so_error (handleSubmit filled_form (Some "alice"%string) (items one_lamp)
              (total one_lamp) (λ _, false))
  = Some "An error occurred while processing your order. Please try again."%string.
Proof. split; reflexivity. Qed.

(** * The product list *)

Lemma ceil_div_12 (n : Z) :
  0 ≤ n →
  12 * (ceil_div n 12 - 1) < n ≤ 12 * ceil_div n 12 ∨ n = 0 ∧ ceil_div n 12 = 0.
Proof.
  intros Hn. unfold ceil_div.
  destruct (decide (n = 0)) as [->|Hne]; [by right|left].
  pose proof (Z.div_mod (- n) 12 ltac:(lia)) as Hdm.
  pose proof (Z.mod_pos_bound (- n) 12 ltac:(lia)) as Hb. lia.
Qed.

Lemma page_is_chunk {A} (p : nat) (l : list A) :
  getCurrentPageProducts (Z.of_nat (S p)) l = take 12 (drop (12 * p) l).
Proof.
  unfold getCurrentPageProducts, js_slice, productsPerPage.
  rewrite !decide_False by lia.
  destruct (decide (12 * p ≤ length l)%nat) as [Hle|Hgt].
  - replace (Z.to_nat (Z.min ((Z.of_nat (S p) - 1) * 12) (Z.of_nat (length l))))
      with (12 * p)%nat by lia.
    destruct (decide (12 * p + 12 ≤ length l)%nat) as [Hle'|Hgt'].
    + f_equal. lia.
    + rewrite !take_ge; [done|rewrite length_drop; lia..].
  - rewrite !drop_ge by lia. by rewrite !take_nil.
Qed.

Lemma chunks_concat {A} (k : nat) (l : list A) :
  concat ((λ p, take 12 (drop (12 * p) l)) <$> seq 0 k) = take (12 * k) l.
Proof.
  induction k as [|k IH]; [by rewrite Nat.mul_0_r, take_0|].
  rewrite seq_S, fmap_app, concat_app, IH. simpl. rewrite app_nil_r.
  rewrite take_take_drop. f_equal. lia.
Qed.

(** X15. The pages of the product list split it: every page holds at most
    twelve products, the pages 1 to totalPages put one after the other are
    the filtered list, each of these pages holds at least one product, and
    every later page is empty. *)
Theorem pages_split_the_list (A : Type) (filteredProducts : list A) :
  (∀ page, (length (getCurrentPageProducts page filteredProducts) ≤ 12)%nat) ∧
  concat ((λ page, getCurrentPageProducts (Z.of_nat page) filteredProducts)
            <$> seq 1 (Z.to_nat (totalPages filteredProducts)))
  = filteredProducts ∧
  (∀ page, 1 ≤ page →
     (getCurrentPageProducts page filteredProducts ≠ [] ↔
      page ≤ totalPages filteredProducts)).
Proof.
  pose proof (ceil_div_12 (Z.of_nat (length filteredProducts)) ltac:(lia)) as Hc.
  split_and!.
  - intros page. unfold getCurrentPageProducts, js_slice, productsPerPage.
    rewrite length_take. repeat case_decide; lia.
  - rewrite <- fmap_S_seq, <- list_fmap_compose.
    erewrite list_fmap_ext; [|intros i p _; unfold compose; apply page_is_chunk].
    rewrite chunks_concat. apply take_ge. unfold totalPages, productsPerPage in *. lia.
  - intros page Hp. replace page with (Z.of_nat (S (Z.to_nat (page - 1)))) at 1 by lia.
    rewrite page_is_chunk. unfold totalPages, productsPerPage in *.
    split.
    + intros Hne.
      destruct (decide (page ≤ ceil_div (Z.of_nat (length filteredProducts)) 12))
        as [|Hgt]; [done|].
      exfalso. apply Hne. rewrite drop_ge; [done|lia].
    + intros Hle Hnil. apply (f_equal length) in Hnil.
      rewrite length_take, length_drop in Hnil. change (length (@nil A)) with 0%nat in Hnil. lia.
Qed.

(** X16. With more than one page and the current page among them, the
    numbered buttons run over a window of consecutive pages that lies within
    1..totalPages, contains the current page and has five pages, or all of
    them when there are fewer than five. *)
Theorem page_window_holds_current (currentPage pages : Z) :
  1 < pages → 1 ≤ currentPage ≤ pages →
  ∃ startPage endPage,
    page_window currentPage pages = Some (startPage, endPage) ∧
    1 ≤ startPage ≤ currentPage ∧ currentPage ≤ endPage ≤ pages ∧
    endPage - startPage + 1 = Z.min 5 pages.
Proof.
  intros Hp Hc. unfold page_window. rewrite decide_False by lia.
  change (5 / 2) with 2. cbv zeta.
  destruct (decide (Z.max 1 (currentPage - 2) + 5 - 1 > pages)).
  - eexists _, _. split; [reflexivity|]. lia.
  - eexists _, _. split; [reflexivity|]. lia.
Qed.

Lemma page_window_holds_current_witness :
  ∃ startPage endPage,
    page_window 7 8 = Some (startPage, endPage) ∧
    1 ≤ startPage ≤ 7 ∧ 7 ≤ endPage ≤ 8 ∧
    endPage - startPage + 1 = Z.min 5 8.
Proof. apply (page_window_holds_current 7 8); lia. Defined.

(** * Login rate limiting *)

Lemma check_first_attempt email now (table : gmap string LoginRecord) :
  email ≠ ""%string → table !! email = None →
  checkLoginRateLimit email now table = (<[email := fresh_record now]> table, go_ahead).
Proof. intros He Hn. unfold checkLoginRateLimit. by rewrite decide_False, Hn. Qed.

Lemma check_within_window email now (table : gmap string LoginRecord) r :
  email ≠ ""%string → table !! email = Some r → now - firstAttempt r ≤ windowMs →
  (checkLoginRateLimit email now table).1
  = <[email := {| attempts := attempts r + 1; firstAttempt := firstAttempt r;
                  lastAttempt := now |}]> table ∧
  allowed (checkLoginRateLimit email now table).2 = bool_decide (attempts r + 1 ≤ maxAttempts).
Proof.
  intros He Hr Hw. unfold checkLoginRateLimit.
  rewrite decide_False, Hr by done. rewrite decide_False by lia. cbn zeta. simpl attempts.
  destruct (decide (attempts r + 1 > maxAttempts)); simpl.
  - split; [done|]. by rewrite bool_decide_eq_false_2 by lia.
  - split; [done|]. by rewrite bool_decide_eq_true_2 by lia.
Qed.

Lemma check_after_window email now (table : gmap string LoginRecord) r :
  email ≠ ""%string → table !! email = Some r → now - firstAttempt r > windowMs →
  checkLoginRateLimit email now table = (<[email := fresh_record now]> table, go_ahead).
Proof.
  intros He Hr Hw. unfold checkLoginRateLimit.
  rewrite decide_False, Hr by done. by rewrite decide_True by done.
Qed.

(** Attempts within the window count up and never move its start. *)
Lemma attempt_at_within email times (table : gmap string LoginRecord) r :
  email ≠ ""%string → table !! email = Some r →
  Forall (λ t, t - firstAttempt r ≤ windowMs) times →
  (attempt_at email times table).2
  = (λ i, bool_decide (attempts r + Z.of_nat i + 1 ≤ maxAttempts)) <$> seq 0 (length times) ∧
  ∃ r', (attempt_at email times table).1 !! email = Some r' ∧
        attempts r' = attempts r + Z.of_nat (length times) ∧
        firstAttempt r' = firstAttempt r.
Proof.
  intros He. revert table r. induction times as [|now later IH]; intros table r Hr Hall.
  - simpl. split; [done|]. exists r. split_and!; [done|lia|done].
  - apply Forall_cons in Hall as [Hnow Hlater].
    destruct (check_within_window email now table r He Hr Hnow) as [Htable Hallowed].
    cbn [attempt_at]. rewrite Hallowed, Htable.
    destruct (IH (<[email := {| attempts := attempts r + 1;
                                firstAttempt := firstAttempt r;
                                lastAttempt := now |}]> table)
                 {| attempts := attempts r + 1; firstAttempt := firstAttempt r;
                    lastAttempt := now |})
      as [Hflags (r' & Hr' & Hcount & Hfirst)].
    { apply lookup_insert_eq. }
    { done. }
    simpl in Hflags, Hcount, Hfirst. split.
    + cbn [snd length]. rewrite Hflags.
      change (seq 0 (S (length later))) with (0%nat :: seq 1 (length later)).
      rewrite fmap_cons, <- fmap_S_seq, <- list_fmap_compose. f_equal.
      * apply bool_decide_ext. lia.
      * apply list_fmap_ext. intros i n _. simpl. apply bool_decide_ext. lia.
    + exists r'. cbn [fst length]. split_and!; [done|lia|done].
Qed.

(** X17. Within fifteen minutes of the first attempt of an email that has
    no record, the first five attempts are allowed and every further one is
    refused. *)
Theorem five_attempts_per_window (email : string) (first : Z) (later : list Z)
    (loginAttempts : gmap string LoginRecord) :
  email ≠ ""%string →
  loginAttempts !! email = None →
  Forall (λ t, t - first ≤ windowMs) later →
  (attempt_at email (first :: later) loginAttempts).2
  = (λ i, bool_decide (i < 5)%nat) <$> seq 0 (S (length later)).
Proof.
  intros He Hn Hall. cbn [attempt_at]. rewrite (check_first_attempt _ _ _ He Hn).
  destruct (attempt_at_within email later (<[email := fresh_record first]> loginAttempts)
              (fresh_record first) He (lookup_insert_eq _ _ _) Hall) as [Hflags _].
  cbn [snd fst allowed go_ahead]. rewrite Hflags.
  change (seq 0 (S (length later))) with (0%nat :: seq 1 (length later)).
  rewrite fmap_cons, <- fmap_S_seq, <- list_fmap_compose. f_equal.
  apply list_fmap_ext. intros i n _. unfold maxAttempts. simpl.
  apply bool_decide_ext. lia.
Qed.

Lemma five_attempts_per_window_witness :
  (attempt_at "ada@example.org" [1000; 2000; 3000; 4000; 5000; 6000; 900000] ∅).2
  = (λ i, bool_decide (i < 5)%nat) <$> seq 0 7.
Proof.
  apply (five_attempts_per_window "ada@example.org" 1000
           [2000; 3000; 4000; 5000; 6000; 900000] ∅).
  - discriminate.
  - apply lookup_empty.
  - unfold windowMs. repeat constructor; lia.
Defined.

(** X18. Refused attempts do not prolong the block: however many attempts
    were made within the window, the first attempt later than fifteen minutes
    after the window's first attempt is allowed, and it starts a new window
    with a count of one. *)
Theorem block_ends_with_the_window (email : string) (first : Z) (later : list Z)
    (now : Z) (loginAttempts : gmap string LoginRecord) :
  email ≠ ""%string →
  loginAttempts !! email = None →
  Forall (λ t, t - first ≤ windowMs) later →
  now - first > windowMs →
  allowed (checkLoginRateLimit email now
             (attempt_at email (first :: later) loginAttempts).1).2 = true ∧
  (checkLoginRateLimit email now
     (attempt_at email (first :: later) loginAttempts).1).1 !! email
  = Some (fresh_record now).
Proof.
  intros He Hn Hall Hnow. cbn [attempt_at]. rewrite (check_first_attempt _ _ _ He Hn).
  destruct (attempt_at_within email later (<[email := fresh_record first]> loginAttempts)
              (fresh_record first) He (lookup_insert_eq _ _ _) Hall)
    as [_ (r' & Hr' & _ & Hfirst)].
  cbn [fst]. simpl in Hfirst.
  rewrite (check_after_window email now _ r' He Hr') by lia.
  split; [done|]. apply lookup_insert_eq.
Qed.

Lemma block_ends_with_the_window_witness :
  allowed (checkLoginRateLimit "ada@example.org" 901001
             (attempt_at "ada@example.org"
                [1000; 2000; 3000; 4000; 5000; 6000; 900000] ∅).1).2 = true ∧
  (checkLoginRateLimit "ada@example.org" 901001
     (attempt_at "ada@example.org"
        [1000; 2000; 3000; 4000; 5000; 6000; 900000] ∅).1).1 !! "ada@example.org"%string
  = Some (fresh_record 901001).
Proof.
  apply (block_ends_with_the_window "ada@example.org" 1000
           [2000; 3000; 4000; 5000; 6000; 900000] 901001 ∅).
  - discriminate.
  - apply lookup_empty.
  - unfold windowMs. repeat constructor; lia.
  - unfold windowMs. lia.
Defined.

Lemma verdict_by_record email now (table1 table2 : gmap string LoginRecord) :
  table1 !! email = table2 !! email →
  (checkLoginRateLimit email now table1).2 = (checkLoginRateLimit email now table2).2.
Proof.
  intros Heq. unfold checkLoginRateLimit.
  destruct (decide (email = ""%string)); [done|]. rewrite Heq.
  destruct (table2 !! email) as [r|]; [|done].
  destruct (decide (now - firstAttempt r > windowMs)); [done|]. cbn zeta.
  by destruct (decide (_ > maxAttempts)).
Qed.

Lemma check_frame email other now (table : gmap string LoginRecord) :
  other ≠ email → (checkLoginRateLimit email now table).1 !! other = table !! other.
Proof.
  intros Hne. unfold checkLoginRateLimit.
  destruct (decide (email = ""%string)); [done|].
  destruct (table !! email) as [r|] eqn:Hr; [|cbn [fst]; by rewrite lookup_insert_ne].
  destruct (decide (now - firstAttempt r > windowMs));
    [cbn [fst]; by rewrite lookup_insert_ne|].
  cbn zeta. destruct (decide (_ > maxAttempts)); cbn [fst]; by rewrite lookup_insert_ne.
Qed.

(** X19. Attempts are counted per email: an attempt of one email changes
    neither the record of another email nor the verdict a later attempt of
    that other email gets. An empty email is always allowed and never
    recorded. *)
Theorem rate_limit_is_per_email (email other : string) (now later : Z)
    (loginAttempts : gmap string LoginRecord) :
  other ≠ email →
  (checkLoginRateLimit email now loginAttempts).1 !! other = loginAttempts !! other ∧
  (checkLoginRateLimit other later (checkLoginRateLimit email now loginAttempts).1).2
  = (checkLoginRateLimit other later loginAttempts).2 ∧
  checkLoginRateLimit "" now loginAttempts = (loginAttempts, go_ahead).
Proof.
  intros Hne. split_and!.
  - by apply check_frame.
  - apply verdict_by_record. by apply check_frame.
  - done.
Qed.

Lemma rate_limit_is_per_email_witness :
  let table := (attempt_at "ada@example.org" [1; 2; 3; 4; 5; 6] ∅).1 in
  (checkLoginRateLimit "ada@example.org" 7 table).1 !! "bob@example.org"%string
  = table !! "bob@example.org"%string ∧
  (checkLoginRateLimit "bob@example.org" 8
     (checkLoginRateLimit "ada@example.org" 7 table).1).2
  = (checkLoginRateLimit "bob@example.org" 8 table).2 ∧
  checkLoginRateLimit "" 7 table = (table, go_ahead).
Proof.
  intros table.
  apply (rate_limit_is_per_email "ada@example.org" "bob@example.org" 7 8 table).
  discriminate.
Defined.

(** X20. resetLoginAttempts(email), as login calls it after a successful
    sign-in, forgets the email's record and leaves the other records alone:
    the next attempt of the email is allowed and counts as the first of a
    new window, however many attempts went before. *)
Theorem reset_restarts_the_count (email : string) (now : Z)
    (loginAttempts : gmap string LoginRecord) :
  email ≠ ""%string →
  resetLoginAttempts email loginAttempts !! email = None ∧
  (∀ other, other ≠ email →
     resetLoginAttempts email loginAttempts !! other = loginAttempts !! other) ∧
  checkLoginRateLimit email now (resetLoginAttempts email loginAttempts)
  = (<[email := fresh_record now]> (resetLoginAttempts email loginAttempts), go_ahead).
Proof.
  intros He.
  assert (resetLoginAttempts email loginAttempts !! email = None) as Hgone.
  { unfold resetLoginAttempts. rewrite decide_False by done.
    destruct (loginAttempts !! email) eqn:Hr; [apply lookup_delete_eq|done]. }
  split_and!; [done| |by apply check_first_attempt].
  intros other Hne. unfold resetLoginAttempts. rewrite decide_False by done.
  destruct (loginAttempts !! email); [by apply lookup_delete_ne|done].
Qed.

Lemma reset_restarts_the_count_witness :
  let table := (attempt_at "ada@example.org" [1; 2; 3; 4; 5; 6] ∅).1 in
  resetLoginAttempts "ada@example.org" table !! "ada@example.org"%string = None ∧
  (∀ other, other ≠ "ada@example.org"%string →
     resetLoginAttempts "ada@example.org" table !! other = table !! other) ∧
  checkLoginRateLimit "ada@example.org" 7 (resetLoginAttempts "ada@example.org" table)
  = (<[("ada@example.org"%string) := fresh_record 7]>
       (resetLoginAttempts "ada@example.org" table), go_ahead).
Proof.
  intros table. apply (reset_restarts_the_count "ada@example.org" 7 table). discriminate.
Defined.

Lemma ceil_div_bounds (a b : Z) :
  0 < b → b * (ceil_div a b - 1) < a ≤ b * ceil_div a b.
Proof.
  intros Hb. unfold ceil_div.
  pose proof (Z.div_mod (- a) b ltac:(lia)) as Hdm.
  pose proof (Z.mod_pos_bound (- a) b Hb) as Hm. nia.
Qed.

(** X21. A refusal names the minutes left: when an email has made five or
    more attempts in a window that is still open, the next attempt is
    refused, the reported timeLeft is the time to the end of the window
    rounded up to whole minutes, the message quotes it, and with a clock that
    has not gone back it lies between 0 and 15. *)
Theorem refusal_names_minutes_left (email : string) (now : Z)
    (loginAttempts : gmap string LoginRecord) (r : LoginRecord) :
  email ≠ ""%string →
  loginAttempts !! email = Some r →
  now - firstAttempt r ≤ windowMs →
  5 ≤ attempts r →
  ∃ left,
    (checkLoginRateLimit email now loginAttempts).2
    = {| allowed := false; timeLeft := Some left;
         message := Some ("Too many login attempts. Please try again in "
                          +:+ pretty left +:+ " minutes.")%string |} ∧
    60000 * (left - 1) < firstAttempt r + windowMs - now ≤ 60000 * left ∧
    (firstAttempt r ≤ now → 0 ≤ left ≤ 15).
Proof.
  intros He Hr Hw Hk. unfold checkLoginRateLimit.
  rewrite decide_False, Hr by done. rewrite decide_False by lia. cbn zeta. simpl attempts.
  rewrite decide_True by (unfold maxAttempts; lia).
  eexists. split; [reflexivity|].
  pose proof (ceil_div_bounds (windowMs - (now - firstAttempt r)) 60000 ltac:(lia)) as Hc.
  unfold windowMs in *. split; [lia|]. intros Hclock. lia.
Qed.

Lemma refusal_names_minutes_left_witness :
  let table := (attempt_at "ada@example.org" [1000; 2000; 3000; 4000; 5000] ∅).1 in
  ∃ left,
    (checkLoginRateLimit "ada@example.org" 61000 table).2
    = {| allowed := false; timeLeft := Some left;
         message := Some ("Too many login attempts. Please try again in "
                          +:+ pretty left +:+ " minutes.")%string |} ∧
    60000 * (left - 1) < 1000 + windowMs - 61000 ≤ 60000 * left ∧
    (1000 ≤ 61000 → 0 ≤ left ≤ 15).
Proof.
  intros table.
  apply (refusal_names_minutes_left "ada@example.org" 61000 table
           {| attempts := 5; firstAttempt := 1000; lastAttempt := 5000 |}).
  - discriminate.
  - reflexivity.
  - unfold windowMs. simpl. lia.
  - simpl. lia.
Defined.

(** * The session timeout *)

Lemma session_step_alive store sd e :
  user_session store = Some sd → ss_uid sd ≠ ""%string → ss_lastActivity sd ≠ 0 →
  event_time e - ss_lastActivity sd ≤ sessionTimeout →
  (session_step store e).2 = false ∧
  user_session (session_step store e).1
  = Some {| ss_uid := ss_uid sd; ss_lastActivity := event_time e |}.
Proof.
  intros Hs Hu Hl Hgap. destruct e as [now|now]; simpl in *.
  - unfold checkSessionTimeout. rewrite Hs.
    rewrite decide_False by done. by rewrite decide_False by lia.
  - unfold activityHandler. rewrite Hs. by rewrite decide_False by done.
Qed.

Lemma default_last_cons {A} (d x : A) (l : list A) :
  default d (last (x :: l)) = default x (last l).
Proof.
  revert d x. induction l as [|y l IH]; intros d x; [done|].
  rewrite last_cons_cons. by rewrite !(IH _ y).
Qed.

Lemma session_run_alive store sd events :
  user_session store = Some sd → ss_uid sd ≠ ""%string → ss_lastActivity sd ≠ 0 →
  spaced sessionTimeout (ss_lastActivity sd) events →
  Forall (λ expired, expired = false) (session_run store events).2 ∧
  user_session (session_run store events).1
  = Some {| ss_uid := ss_uid sd;
            ss_lastActivity := default (ss_lastActivity sd) (last (event_time <$> events)) |}.
Proof.
  revert store sd. induction events as [|e later IH]; intros store sd Hs Hu Hl Hsp.
  - simpl. split; [constructor|]. rewrite Hs. by destruct sd.
  - destruct Hsp as (Hgap & Hne & Hlater).
    destruct (session_step_alive store sd e Hs Hu Hl Hgap) as [Hfalse Hnext].
    destruct (IH (session_step store e).1
                {| ss_uid := ss_uid sd; ss_lastActivity := event_time e |}
                Hnext Hu Hne Hlater) as [Hall Hfinal].
    cbn [session_run fst snd]. split; [by constructor|].
    rewrite Hfinal. cbn [ss_uid ss_lastActivity]. rewrite fmap_cons.
    by rewrite default_last_cons.
Qed.

(** X22. The timeout check counts as activity. A session outlives every
    sequence of timeout checks and user events in which each comes at most
    thirty minutes after the one before, even when all of them are timeout
    checks: no check finds it expired, and the session keeps its uid with the
    time of the last event. A check that comes more than thirty minutes after
    the last recorded activity finds it expired, removes the session, blanks
    the CSRF token and asks for the sign-out. *)
Theorem session_outlives_close_checks (store : AuthStore) (sessionData : Session)
    (events : list SessionEvent) :
  user_session store = Some sessionData →
  ss_uid sessionData ≠ ""%string →
  ss_lastActivity sessionData ≠ 0 →
  spaced sessionTimeout (ss_lastActivity sessionData) events →
  Forall (λ expired, expired = false) (session_run store events).2 ∧
  user_session (session_run store events).1
  = Some {| ss_uid := ss_uid sessionData;
            ss_lastActivity :=
              default (ss_lastActivity sessionData) (last (event_time <$> events)) |} ∧
  (∀ now, now - ss_lastActivity sessionData > sessionTimeout →
     checkSessionTimeout now store
     = ({| user_session := None; csrfToken := Some ""%string;
           signOutRequested := true |}, true)).
Proof.
  intros Hs Hu Hl Hsp.
  destruct (session_run_alive store sessionData events Hs Hu Hl Hsp) as [Hall Hfinal].
  split_and!; [done|done|].
  intros now Hnow. unfold checkSessionTimeout. rewrite Hs.
  rewrite decide_False by done. by rewrite decide_True by done.
Qed.

Lemma session_outlives_close_checks_witness :
  let store := {| user_session := Some {| ss_uid := "u1"; ss_lastActivity := 1000 |};
                  csrfToken := Some "ab12"%string; signOutRequested := false |} in
  let events := [TimeoutCheck 61000; TimeoutCheck 121000; TimeoutCheck 1921000] in
  Forall (λ expired, expired = false) (session_run store events).2 ∧
  user_session (session_run store events).1
  = Some {| ss_uid := "u1";
            ss_lastActivity := default 1000 (last (event_time <$> events)) |} ∧
  (∀ now, now - 1000 > sessionTimeout →
     checkSessionTimeout now store
     = ({| user_session := None; csrfToken := Some ""%string;
           signOutRequested := true |}, true)).
Proof.
  intros store events.
  apply (session_outlives_close_checks store
           {| ss_uid := "u1"; ss_lastActivity := 1000 |} events).
  - reflexivity.
  - discriminate.
  - discriminate.
  - unfold sessionTimeout. simpl. lia.
Defined.

(** * CSRF tokens *)

Lemma hex_value_digit (n : N) : (n < 16)%N → hex_value (hex_digit n) = n.
Proof.
  intros Hn.
  assert (∃ k, (k < 16)%nat ∧ n = N.of_nat k) as (k & Hk & ->)
    by (exists (N.to_nat n); lia).
  do 16 (destruct k as [|k]; [reflexivity|]). lia.
Qed.

Lemma hex_digit_in (n : N) : (n < 16)%N → hex_digit n ∈ hex_digits.
Proof.
  intros Hn.
  assert (∃ k, (k < 16)%nat ∧ n = N.of_nat k) as (k & Hk & ->)
    by (exists (N.to_nat n); lia).
  unfold hex_digit. rewrite Nat2N.id. apply list_elem_of_lookup. exists k.
  do 16 (destruct k as [|k]; [reflexivity|]). lia.
Qed.

Lemma byte_in_hex (byte : N) :
  (byte < 256)%N →
  padStart2 (toString16 byte) = [hex_digit (byte / 16); hex_digit (byte mod 16)].
Proof.
  intros Hb. unfold toString16, padStart2.
  destruct (decide (byte < 16)%N) as [Hs|Hs]; [|done].
  simpl. by rewrite N.div_small, N.mod_small.
Qed.

Lemma string_length_chars (s : string) :
  String.length s = length (String.list_ascii_of_string s).
Proof. induction s as [|a s IH]; simpl; [done|by rewrite IH]. Qed.

Lemma token_chars (randomBytes : list N) :
  bytes randomBytes →
  String.list_ascii_of_string (generateCSRFToken randomBytes)
  = concat ((λ byte, [hex_digit (byte / 16); hex_digit (byte mod 16)]) <$> randomBytes).
Proof.
  intros Hb. unfold generateCSRFToken.
  rewrite String.list_ascii_of_string_of_list_ascii. f_equal.
  apply list_fmap_ext. intros i b Hi. apply byte_in_hex.
  eapply Forall_forall in Hb; [exact Hb|]. by eapply list_elem_of_lookup_2.
Qed.

Lemma hex_pairs_inj (l1 l2 : list N) :
  bytes l1 → bytes l2 →
  concat ((λ byte, [hex_digit (byte / 16); hex_digit (byte mod 16)]) <$> l1)
  = concat ((λ byte, [hex_digit (byte / 16); hex_digit (byte mod 16)]) <$> l2) →
  l1 = l2.
Proof.
  intros H1. revert l2. induction H1 as [|b1 l1 Hb1 _ IH]; intros l2 H2 Heq.
  - destruct l2; [done|]. discriminate Heq.
  - destruct H2 as [|b2 l2 Hb2 H2]; [discriminate Heq|].
    rewrite !fmap_cons in Heq. simpl in Heq.
    injection Heq as Hhi Hlo Hrest.
    apply (f_equal hex_value) in Hhi, Hlo.
    rewrite !hex_value_digit in Hhi, Hlo
      by (try apply N.mod_upper_bound; try apply N.Div0.div_lt_upper_bound; lia).
    f_equal; [|by apply IH].
    rewrite (N.div_mod b1 16), (N.div_mod b2 16) by lia. congruence.
Qed.

(** X23. A CSRF token spells its random bytes in lowercase hexadecimal, two
    characters a byte: its length is twice the number of bytes (64 for the 32
    the code draws), every character is one of 0-9a-f, and different byte
    arrays give different tokens. *)
Theorem csrf_token_spells_bytes (randomBytes others : list N) :
  bytes randomBytes → bytes others →
  String.length (generateCSRFToken randomBytes) = (2 * length randomBytes)%nat ∧
  Forall (λ a, a ∈ hex_digits)
         (String.list_ascii_of_string (generateCSRFToken randomBytes)) ∧
  (generateCSRFToken randomBytes = generateCSRFToken others → randomBytes = others).
Proof.
  intros Hb Ho. split_and!.
  - rewrite string_length_chars, (token_chars _ Hb).
    clear Hb. induction randomBytes as [|b l IH]; [done|].
    rewrite fmap_cons. simpl. rewrite IH. lia.
  - rewrite (token_chars _ Hb).
    induction Hb as [|b l Hlt _ IH]; [constructor|].
    rewrite fmap_cons. simpl.
    apply Forall_cons. split; [|apply Forall_cons; split; [|exact IH]].
    + apply hex_digit_in. apply N.Div0.div_lt_upper_bound. lia.
    + apply hex_digit_in. apply N.mod_upper_bound. lia.
  - intros Heq. apply (f_equal String.list_ascii_of_string) in Heq.
    rewrite (token_chars _ Hb), (token_chars _ Ho) in Heq.
    by apply hex_pairs_inj.
Qed.

Lemma csrf_token_spells_bytes_witness :
  String.length (generateCSRFToken [0; 15; 16; 255]%N) = (2 * 4)%nat ∧
  Forall (λ a, a ∈ hex_digits)
         (String.list_ascii_of_string (generateCSRFToken [0; 15; 16; 255]%N)) ∧
  (generateCSRFToken [0; 15; 16; 255]%N = generateCSRFToken [0; 15; 16; 254]%N →
   [0; 15; 16; 255]%N = [0; 15; 16; 254]%N).
Proof.
  apply (csrf_token_spells_bytes [0; 15; 16; 255]%N [0; 15; 16; 254]%N);
    unfold bytes; repeat constructor; lia.
Defined.

Example csrf_token_sample :
  generateCSRFToken [0; 15; 16; 255]%N = "000f10ff"%string.
Proof. reflexivity. Qed.

(** * The secure storage wrapper *)

Lemma xor_unit_twice c k : xor_unit (xor_unit c k) k = c.
Proof.
  unfold xor_unit. rewrite N.lxor_assoc, N.lxor_nilpotent. apply N.lxor_0_r.
Qed.

(** Mixing with the same secret twice gives the string back. *)
Lemma xor_with_involutive secret s : xor_with secret (xor_with secret s) = s.
Proof.
  unfold xor_with. apply list_eq. intros i.
  rewrite !list_lookup_imap. destruct (s !! i) as [c|]; [|done].
  simpl. by rewrite xor_unit_twice.
Qed.

Lemma lxor_below_256 (c k : N) : (c < 256 → k < 256 → N.lxor c k < 256)%N.
Proof.
  intros Hc Hk.
  destruct (decide (N.lxor c k = 0)%N) as [->|Hne]; [done|].
  change 256%N with (2 ^ 8)%N. apply N.log2_lt_pow2; [lia|].
  pose proof (N.log2_lxor c k) as Hl.
  assert (N.log2 c < 8)%N.
  { destruct (decide (c = 0)%N) as [->|]; [done|]. apply N.log2_lt_pow2; [lia|done]. }
  assert (N.log2 k < 8)%N.
  { destruct (decide (k = 0)%N) as [->|]; [done|]. apply N.log2_lt_pow2; [lia|done]. }
  lia.
Qed.

Lemma latin1_spec (s : js_string) : latin1 s = true ↔ Forall (λ c, c < 256)%N s.
Proof.
  unfold latin1. induction s as [|c s IH]; simpl.
  - split; [constructor|done].
  - rewrite andb_true_iff, IH, N.ltb_lt, Forall_cons. done.
Qed.

Lemma key_unit_latin1 secret i k :
  latin1 secret = true → key_unit secret i = Some k → (k < 256)%N.
Proof.
  rewrite latin1_spec, Forall_forall. intros Hs Hk.
  apply Hs. by eapply list_elem_of_lookup_2.
Qed.

Lemma xor_unit_latin1 secret i c :
  latin1 secret = true → (xor_unit c (key_unit secret i) < 256 ↔ c < 256)%N.
Proof.
  intros Hs. unfold xor_unit.
  destruct (key_unit secret i) as [k|] eqn:Hk; simpl; [|by rewrite N.lxor_0_r].
  pose proof (key_unit_latin1 _ _ _ Hs Hk) as Hlt. split; intros Hc.
  - rewrite <- (N.lxor_0_r c), <- (N.lxor_nilpotent k), <- N.lxor_assoc.
    by apply lxor_below_256.
  - by apply lxor_below_256.
Qed.

(** Mixing with a Latin-1 secret keeps Latin-1 strings Latin-1 and no
    others. *)
Lemma latin1_xor_with secret s :
  latin1 secret = true → latin1 (xor_with secret s) = latin1 s.
Proof.
  intros Hs. apply eq_true_iff_eq. rewrite !latin1_spec, !Forall_lookup.
  unfold xor_with. split.
  - intros Hx i c Hc.
    apply (xor_unit_latin1 secret i c Hs). apply (Hx i).
    by rewrite list_lookup_imap, Hc.
  - intros Hx i c Hc. rewrite list_lookup_imap in Hc.
    destruct (s !! i) as [c'|] eqn:Hc'; [|done]. injection Hc as <-.
    apply xor_unit_latin1; [done|]. by apply (Hx i).
Qed.

Lemma latin1_default_secret : latin1 default_secret = true.
Proof. reflexivity. Qed.

Section SecureStorageFacts.

Context {Data : Type}.
Variable truthy : Data → bool.
Variable stringify : Data → option js_string.
Variable parse_json : js_string → option Data.
Variable btoa : js_string → string.
Variable atob : string → option js_string.

Lemma encrypt_text data secret jsonString :
  truthy data = true → stringify data = Some jsonString →
  latin1 jsonString = true → latin1 (default default_secret secret) = true →
  encrypt truthy stringify btoa data secret
  = btoa (xor_with (default default_secret secret) jsonString).
Proof.
  intros Ht Hj Hl Hs. unfold encrypt. rewrite Ht, Hj. simpl.
  by rewrite latin1_xor_with, Hl.
Qed.

Lemma encrypt_nothing data secret :
  truthy data = false ∨ stringify data = None ∨
  (∃ jsonString, stringify data = Some jsonString ∧ latin1 jsonString = false ∧
                 latin1 (default default_secret secret) = true) →
  encrypt truthy stringify btoa data secret = ""%string.
Proof.
  unfold encrypt. intros [Ht|[Hj|(js & Hj & Hl & Hs)]].
  - by rewrite Ht.
  - rewrite Hj. by destruct (truthy data).
  - rewrite Hj. rewrite latin1_xor_with, Hl by done. by destruct (truthy data).
Qed.

(** X24. What secureStorage.setItem stored, getItem gives back: for a truthy
    value whose JSON text is Latin-1, a Latin-1 secret (the default one
    included) and a store that works, decrypt undoes encrypt and the value
    read is the value written, provided atob undoes btoa, btoa of a non-empty
    string is non-empty and JSON.parse undoes JSON.stringify on the value. *)
Theorem secure_storage_round_trip (key : string) (data : Data)
    (secret : option js_string) (jsonString : js_string) (w : World) :
  (∀ s, latin1 s = true → atob (btoa s) = Some s) →
  (∀ s, s ≠ [] → btoa s ≠ ""%string) →
  truthy data = true →
  stringify data = Some jsonString →
  jsonString ≠ [] →
  latin1 jsonString = true →
  latin1 (default default_secret secret) = true →
  parse_json jsonString = Some data →
  read_throws (localStorage w) = false →
  write_throws (localStorage w) = false →
  decrypt parse_json atob (encrypt truthy stringify btoa data secret) secret = Some data ∧
  (secure_getItem parse_json atob key secret
     (secure_setItem truthy stringify btoa key data secret w).1).2 = Ok (Some data).
Proof.
  intros Hab Hne Ht Hj Hjne Hl Hs Hp Hr Hw.
  assert (xor_with (default default_secret secret) jsonString ≠ []) as Hmixed.
  { intros Hnil. apply (f_equal length) in Hnil. unfold xor_with in Hnil.
    rewrite length_imap in Hnil. by destruct jsonString. }
  assert (decrypt parse_json atob (encrypt truthy stringify btoa data secret) secret
          = Some data) as Hdec.
  { rewrite (encrypt_text _ _ _ Ht Hj Hl Hs). unfold decrypt.
    rewrite decide_False by by apply Hne.
    rewrite Hab by by rewrite latin1_xor_with.
    by rewrite xor_with_involutive. }
  split; [done|].
  unfold secure_getItem, secure_setItem. run_effect. rewrite Hw. simpl. rewrite Hr.
  rewrite lookup_insert_eq. rewrite decide_False; [by rewrite Hdec|].
  rewrite (encrypt_text _ _ _ Ht Hj Hl Hs). by apply Hne.
Qed.

(** X25. Values the wrapper cannot encrypt are dropped without a word: for a
    falsy value, a value JSON.stringify fails on, or a value whose JSON text
    has a character outside Latin-1 (with a Latin-1 secret), setItem stores
    the empty string and returns normally, and getItem then gives null. *)
Theorem secure_storage_drops_silently (key : string) (data : Data)
    (secret : option js_string) (w : World) :
  truthy data = false ∨ stringify data = None ∨
  (∃ jsonString, stringify data = Some jsonString ∧ latin1 jsonString = false ∧
                 latin1 (default default_secret secret) = true) →
  read_throws (localStorage w) = false →
  write_throws (localStorage w) = false →
  (secure_setItem truthy stringify btoa key data secret w).2 = Ok tt ∧
  entries (localStorage (secure_setItem truthy stringify btoa key data secret w).1) !! key
  = Some ""%string ∧
  (secure_getItem parse_json atob key secret
     (secure_setItem truthy stringify btoa key data secret w).1).2 = Ok None.
Proof.
  intros Hcase Hr Hw. unfold secure_getItem, secure_setItem.
  rewrite (encrypt_nothing _ _ Hcase). run_effect. rewrite Hw. simpl. rewrite Hr.
  rewrite lookup_insert_eq. done.
Qed.

End SecureStorageFacts.

Lemma plain_atob_btoa (s : js_string) :
  latin1 s = true → plain_atob (plain_btoa s) = Some s.
Proof.
  rewrite latin1_spec. intros Hs. unfold plain_atob, plain_btoa, units_of. f_equal.
  rewrite String.list_ascii_of_string_of_list_ascii, <- list_fmap_compose.
  rewrite <- (list_fmap_id s) at 2. apply list_fmap_ext. intros i c Hc. simpl.
  apply N_ascii_embedding. eapply Forall_forall in Hs; [exact Hs|].
  by eapply list_elem_of_lookup_2.
Qed.

Lemma plain_btoa_nonempty (s : js_string) : s ≠ [] → plain_btoa s ≠ ""%string.
Proof. by destruct s. Qed.

Lemma secure_storage_round_trip_witness :
  let w := {| cart := initialState; localStorage := empty_store; console := [] |} in
  let text := units_of "{'uid':'u1','lastActivity':1000}" in
  let stringify := λ _ : Session, Some text in
  let parse_json := λ _ : js_string, Some {| ss_uid := "u1"; ss_lastActivity := 1000 |} in
  let data := {| ss_uid := "u1"; ss_lastActivity := 1000 |} in
  decrypt parse_json plain_atob (encrypt (λ _, true) stringify plain_btoa data None) None
  = Some data ∧
  (secure_getItem parse_json plain_atob "user_session" None
     (secure_setItem (λ _, true) stringify plain_btoa "user_session" data None w).1).2
  = Ok (Some data).
Proof.
  intros w text stringify parse_json data.
  apply (secure_storage_round_trip (λ _, true) stringify parse_json plain_btoa plain_atob
           "user_session" data None text w).
  - apply plain_atob_btoa.
  - apply plain_btoa_nonempty.
  - reflexivity.
  - reflexivity.
  - discriminate.
  - reflexivity.
  - reflexivity.
  - reflexivity.
  - reflexivity.
  - reflexivity.
Defined.

Lemma secure_storage_drops_silently_witness :
  let w := {| cart := initialState; localStorage := empty_store; console := [] |} in
  let stringify := λ _ : Session, Some [123; 8364; 125]%N in
  let parse_json := λ _ : js_string, @None Session in
  let data := {| ss_uid := "u1"; ss_lastActivity := 1000 |} in
  (secure_setItem (λ _, true) stringify plain_btoa "user_session" data None w).2 = Ok tt ∧
  entries (localStorage
             (secure_setItem (λ _, true) stringify plain_btoa "user_session" data None w).1)
    !! "user_session"%string = Some ""%string ∧
  (secure_getItem parse_json plain_atob "user_session" None
     (secure_setItem (λ _, true) stringify plain_btoa "user_session" data None w).1).2
  = Ok None.
Proof.
  intros w stringify parse_json data.
  apply (secure_storage_drops_silently (λ _, true) stringify parse_json plain_btoa
           plain_atob "user_session" data None w).
  - right. right. exists [123; 8364; 125]%N. split_and!; reflexivity.
  - reflexivity.
  - reflexivity.
Defined.

(** * Input sanitising *)

Lemma replace_char_app c by_ l1 l2 :
  replace_char c by_ (l1 ++ l2) = replace_char c by_ l1 ++ replace_char c by_ l2.
Proof.
  induction l1 as [|a l1 IH]; [done|]. simpl. by rewrite IH, app_assoc.
Qed.

Lemma sanitize_url_app l1 l2 :
  sanitize_url (l1 ++ l2) = sanitize_url l1 ++ sanitize_url l2.
Proof. unfold sanitize_url. by rewrite !replace_char_app. Qed.

Lemma sanitize_text_app l1 l2 :
  sanitize_text (l1 ++ l2) = sanitize_text l1 ++ sanitize_text l2.
Proof. unfold sanitize_text. by rewrite !replace_char_app. Qed.

Ltac every_char a := destruct a as [[] [] [] [] [] [] [] []]; vm_compute; try done.

Lemma sanitize_url_char a : sanitize_url [a] = escape_url a.
Proof. every_char a. Qed.

Lemma sanitize_text_char a : sanitize_text [a] = escape_text a.
Proof. every_char a. Qed.

(** The passes of each mode amount to one pass over the string. *)
Lemma sanitize_url_one_pass s : sanitize_url s = s ≫= escape_url.
Proof.
  induction s as [|a s IH]; [done|].
  change (a :: s) with ([a] ++ s). rewrite sanitize_url_app, sanitize_url_char, IH.
  by rewrite bind_app, bind_singleton.
Qed.

Lemma sanitize_text_one_pass s : sanitize_text s = s ≫= escape_text.
Proof.
  induction s as [|a s IH]; [done|].
  change (a :: s) with ([a] ++ s). rewrite sanitize_text_app, sanitize_text_char, IH.
  by rewrite bind_app, bind_singleton.
Qed.

Lemma escape_url_safe a : forallb url_safe (escape_url a) = true.
Proof. every_char a. Qed.

Lemma escape_text_safe a : forallb text_safe (escape_text a) = true.
Proof. every_char a. Qed.

Lemma bind_all_safe (safe : ascii → bool) (esc : ascii → list ascii) s :
  (∀ a, forallb safe (esc a) = true) → forallb safe (s ≫= esc) = true.
Proof.
  intros Hesc. induction s as [|a s IH]; [done|].
  rewrite bind_cons, List.forallb_app, Hesc, IH. done.
Qed.

Lemma chars_of_sanitized input :
  chars (sanitizeInput input)
  = if isUrl (chars input) then sanitize_url (chars input)
    else sanitize_text (chars input).
Proof.
  unfold sanitizeInput, chars. destruct (decide (input = ""%string)) as [->|Hne]; [done|].
  cbv zeta. destruct (isUrl _); by rewrite String.list_ascii_of_string_of_list_ascii.
Qed.

Lemma sanitized_is_safe (input : string) :
  forallb url_safe (chars (sanitizeInput input)) = true ∧
  (isUrl (chars input) = false →
   forallb text_safe (chars (sanitizeInput input)) = true).
Proof.
  rewrite chars_of_sanitized. destruct (isUrl (chars input)) eqn:Hu.
  - split; [|done]. rewrite sanitize_url_one_pass.
    apply bind_all_safe, escape_url_safe.
  - rewrite sanitize_text_one_pass. split.
    + apply bind_all_safe. intros a. every_char a.
    + intros _. apply bind_all_safe, escape_text_safe.
Qed.

(** X26. The output of sanitizeInput never holds one of the characters
    <, >, double quote and single quote; and when the input is not a URL
    (does not start with http:// or https://, in any case) it holds no slash
    either. *)
Theorem sanitized_has_no_markup (input : string) :
  forallb url_safe (chars (sanitizeInput input)) = true ∧
  (isUrl (chars input) = false →
   forallb text_safe (chars (sanitizeInput input)) = true).
Proof. apply sanitized_is_safe. Qed.

Lemma escape_url_again a : escape_url a ≫= escape_url = escape_url a.
Proof. every_char a. Qed.

Lemma sanitize_url_idempotent s : sanitize_url (sanitize_url s) = sanitize_url s.
Proof.
  rewrite !sanitize_url_one_pass. induction s as [|a s IH]; [done|].
  rewrite bind_cons, bind_app, IH. by rewrite escape_url_again.
Qed.

Lemma starts_with_ci_kept prefix s :
  (∀ a, ascii_lower a ∈ prefix → escape_url a = [a]) →
  starts_with_ci prefix s = true → starts_with_ci prefix (s ≫= escape_url) = true.
Proof.
  revert s. induction prefix as [|p prefix IH]; intros s Hfix; [done|].
  destruct s as [|a s]; [done|]. cbn [starts_with_ci].
  intros [Ha Hs]%andb_true_iff. apply bool_decide_eq_true in Ha.
  rewrite bind_cons, Hfix by (rewrite Ha; apply elem_of_cons; by left).
  cbn [app starts_with_ci].
  rewrite bool_decide_eq_true_2 by done. cbn [andb]. apply IH; [|done].
  intros b Hb. apply Hfix. apply elem_of_cons. by right.
Qed.

Lemma scheme_chars_kept a :
  bool_decide (ascii_lower a ∈ String.list_ascii_of_string "https://") = true →
  escape_url a = [a].
Proof. every_char a. Qed.

Lemma short_scheme_chars_kept a :
  bool_decide (ascii_lower a ∈ String.list_ascii_of_string "http://") = true →
  escape_url a = [a].
Proof. every_char a. Qed.

Lemma isUrl_kept s : isUrl s = true → isUrl (sanitize_url s) = true.
Proof.
  unfold isUrl. rewrite sanitize_url_one_pass.
  intros [Hs|Hs]%orb_true_iff; apply orb_true_iff; [left|right].
  - apply starts_with_ci_kept; [|done]. intros a Ha.
    by apply short_scheme_chars_kept, bool_decide_eq_true.
  - apply starts_with_ci_kept; [|done]. intros a Ha.
    by apply scheme_chars_kept, bool_decide_eq_true.
Qed.

Lemma starts_with_ci_mem prefix s p :
  starts_with_ci prefix s = true → p ∈ prefix → ∃ a, a ∈ s ∧ ascii_lower a = p.
Proof.
  revert s. induction prefix as [|q prefix IH]; intros s; [by intros _ ?%elem_of_nil|].
  destruct s as [|a s]; [done|]. cbn [starts_with_ci].
  intros [Ha Hs]%andb_true_iff [->|Hin]%elem_of_cons.
  - exists a. split; [apply elem_of_cons; by left|by apply bool_decide_eq_true in Ha].
  - destruct (IH s Hs Hin) as (b & Hb & Hlow).
    exists b. split; [apply elem_of_cons; by right|done].
Qed.

Lemma slash_is_unsafe a : ascii_lower a = "/"%char → text_safe a = false.
Proof. every_char a. Qed.

Lemma isUrl_has_slash s : isUrl s = true → forallb text_safe s = false.
Proof.
  unfold isUrl. intros Hs.
  assert (∃ a, a ∈ s ∧ ascii_lower a = "/"%char) as (a & Hin & Hlow).
  { apply orb_true_iff in Hs as [Hs|Hs];
      apply (starts_with_ci_mem _ _ _ Hs); apply list_elem_of_In; simpl; tauto. }
  apply slash_is_unsafe in Hlow. apply not_true_is_false. intros Hall.
  rewrite forallb_forall in Hall. apply list_elem_of_In in Hin.
  rewrite (Hall a Hin) in Hlow. done.
Qed.

Lemma escape_text_length a :
  (1 ≤ length (escape_text a))%nat ∧
  (rewritten a = true → 1 < length (escape_text a))%nat ∧
  (rewritten a = false → escape_text a = [a]) ∧
  (rewritten a = true → existsb rewritten (escape_text a) = true).
Proof. every_char a; split_and!; (done || lia). Qed.

Lemma bind_escape_text_length s :
  (length s ≤ length (s ≫= escape_text))%nat ∧
  (existsb rewritten s = true → length s < length (s ≫= escape_text))%nat ∧
  (existsb rewritten s = false → s ≫= escape_text = s) ∧
  (existsb rewritten s = true → existsb rewritten (s ≫= escape_text) = true).
Proof.
  induction s as [|a s (IH1 & IH2 & IH3 & IH4)]; [done|].
  destruct (escape_text_length a) as (H1 & H2 & H3 & H4).
  rewrite bind_cons, length_app, List.existsb_app. simpl.
  split_and!.
  - lia.
  - intros [Ha|Hs]%orb_true_iff; [specialize (H2 Ha)|specialize (IH2 Hs)]; lia.
  - intros [Ha Hs]%orb_false_iff. by rewrite (H3 Ha), (IH3 Hs).
  - intros [Ha|Hs]%orb_true_iff; apply orb_true_iff; [left|right]; auto.
Qed.

(** X27. Sanitising a URL twice is sanitising it once. Sanitising other
    text twice is not: the second pass rewrites the ampersands of the first,
    so the result changes again unless the input held none of the characters
    &, <, >, double quote, single quote and slash, in which case it is
    returned as it is. *)
Theorem sanitizing_twice (input : string) :
  (isUrl (chars input) = true →
   sanitizeInput (sanitizeInput input) = sanitizeInput input) ∧
  (isUrl (chars input) = false →
   (sanitizeInput (sanitizeInput input) = sanitizeInput input ↔
    existsb rewritten (chars input) = false) ∧
   (existsb rewritten (chars input) = false → sanitizeInput input = input)).
Proof.
  assert (∀ s1 s2, chars s1 = chars s2 → s1 = s2) as Hinj.
  { intros s1 s2 Heq. rewrite <- (String.string_of_list_ascii_of_string s1),
      <- (String.string_of_list_ascii_of_string s2). unfold chars in Heq. by rewrite Heq. }
  split.
  - intros Hu. apply Hinj. rewrite (chars_of_sanitized (sanitizeInput input)).
    rewrite !chars_of_sanitized, Hu, (isUrl_kept _ Hu).
    apply sanitize_url_idempotent.
  - intros Hu.
    assert (isUrl (chars (sanitizeInput input)) = false) as Hu'.
    { apply not_true_is_false. intros Hurl. apply isUrl_has_slash in Hurl.
      destruct (sanitized_is_safe input) as [_ Hsafe]. rewrite Hsafe in Hurl; done. }
    destruct (bind_escape_text_length (chars input)) as (_ & _ & Hsame & Hstill).
    destruct (bind_escape_text_length (chars input ≫= escape_text)) as (_ & Hgrow & _ & _).
    assert (chars (sanitizeInput (sanitizeInput input))
            = (chars input ≫= escape_text) ≫= escape_text) as Htwice.
    { rewrite (chars_of_sanitized (sanitizeInput input)), Hu'.
      rewrite chars_of_sanitized, Hu. by rewrite !sanitize_text_one_pass. }
    assert (chars (sanitizeInput input) = chars input ≫= escape_text) as Honce.
    { rewrite chars_of_sanitized, Hu. apply sanitize_text_one_pass. }
    split; [split|].
    + intros Heq. apply not_true_is_false. intros Hex.
      apply (f_equal chars) in Heq. rewrite Htwice, Honce in Heq.
      specialize (Hgrow (Hstill Hex)). rewrite Heq in Hgrow. lia.
    + intros Hex. apply Hinj. by rewrite Htwice, Honce, !(Hsame Hex).
    + intros Hex. apply Hinj. by rewrite Honce, (Hsame Hex).
Qed.

Example sanitize_samples :
  sanitizeInput "<b>Tom & Jerry</b>" = "&lt;b&gt;Tom &amp; Jerry&lt;&#x2F;b&gt;"%string ∧
  sanitizeInput "HTTPS://shop.example/a?x=1&y='2'"
  = "HTTPS://shop.example/a?x=1&y=&#x27;2&#x27;"%string ∧
  sanitizeInput (sanitizeInput "a&b") = "a&amp;amp;b"%string.
Proof. split_and!; reflexivity. Qed.

(** * Password strength *)

Lemma lower_keeps_special a : is_special (char_toLowerCase a) = is_special a.
Proof. every_char a. Qed.

Lemma common_has_no_special password :
  toLowerCase password ∈ commonPasswords →
  existsb is_special (chars password) = false.
Proof.
  intros Hin.
  assert (existsb is_special (chars (toLowerCase password)) = false) as Hlow.
  { unfold commonPasswords in Hin.
    repeat (apply elem_of_cons in Hin as [->|Hin]; [reflexivity|]).
    by apply elem_of_nil in Hin. }
  unfold toLowerCase, chars in *.
  rewrite String.list_ascii_of_string_of_list_ascii in Hlow.
  rewrite <- Hlow. clear. induction (String.list_ascii_of_string password) as [|a l IH]; [done|].
  rewrite fmap_cons. simpl. by rewrite lower_keeps_special, IH.
Qed.

Ltac close_case :=
  cbn; split_and!; try lia; try done;
  try (split; (done || lia || (intros; destruct_and?; (done || lia)))).

(** X28. The score of a password is between 0 and 5; it is 5 exactly when
    the password has at least eight characters, an upper-case letter, a
    lower-case letter, a digit and a character that is none of these; the
    feedback reads Strong password exactly when the score is 5; and a
    password that is one of the five common ones, in any case, scores 0. *)
Theorem password_score_meaning (password : string) :
  0 ≤ score (checkPasswordStrength password) ≤ 5 ∧
  (score (checkPasswordStrength password) = 5 ↔
     bool_decide (8 ≤ String.length password)%nat = true ∧
     existsb is_upper (chars password) = true ∧
     existsb is_lower (chars password) = true ∧
     existsb is_digit (chars password) = true ∧
     existsb is_special (chars password) = true) ∧
  (feedback (checkPasswordStrength password) = "Strong password"%string ↔
     score (checkPasswordStrength password) = 5) ∧
  (toLowerCase password ∈ commonPasswords → score (checkPasswordStrength password) = 0).
Proof.
  pose proof (common_has_no_special password) as Hcommon.
  unfold checkPasswordStrength, chars in *.
  destruct password as [|a password]; [close_case|].
  cbv zeta.
  generalize dependent (String.String a password). intros pw Hcommon.
  destruct (bool_decide (toLowerCase pw ∈ commonPasswords)) eqn:Hc.
  - apply bool_decide_eq_true in Hc. rewrite (Hcommon Hc).
    destruct (bool_decide (8 ≤ String.length pw)%nat),
      (existsb is_upper (String.list_ascii_of_string pw)),
      (existsb is_lower (String.list_ascii_of_string pw)),
      (existsb is_digit (String.list_ascii_of_string pw));
      close_case.
  - apply bool_decide_eq_false in Hc.
    destruct (bool_decide (8 ≤ String.length pw)%nat),
      (existsb is_upper (String.list_ascii_of_string pw)),
      (existsb is_lower (String.list_ascii_of_string pw)),
      (existsb is_digit (String.list_ascii_of_string pw)),
      (existsb is_special (String.list_ascii_of_string pw));
      close_case.
Qed.

Example password_samples :
  checkPasswordStrength "Password"
  = {| score := 0;
       feedback := "Add numbers, Add special characters, This is a commonly used password" |} ∧
  checkPasswordStrength "aA1!" =
    {| score := 4; feedback := "Password should be at least 8 characters long" |} ∧
  checkPasswordStrength "Tr1cky-pass" = {| score := 5; feedback := "Strong password" |}.
Proof. split_and!; reflexivity. Qed.
